(** * DrawApp: the synchronisation core of the collaborative canvas

    A shallow embedding of the socket server of [src/pages/api/socket.ts]
    (the handlers of [src/server.js] are the same, statement for
    statement): the module-level state [drawingHistory], [users],
    [userColors], [colorIndex], and one function per [socket.on] listener.

    Every listener runs to completion before the next event is taken, so a
    listener is a function from the state to the next state together with
    the list of events it emits, in program order. *)

From Stdlib Require Import PrimFloat.
From stdpp Require Import base list strings pretty.

Local Open Scope string_scope.
Local Open Scope list_scope.

(** ** JavaScript values *)

(** A JS [number] is an IEEE double.  The server never computes with the
    coordinates it receives; the one thing it does with a number is test it
    for truthiness ([||]): [0], [-0] and [NaN] are falsy. *)
Definition number : Type := float.

Definition truthy (n : number) : bool :=
  negb (PrimFloat.is_nan n || PrimFloat.is_zero n).

(** [v || d] where [v] is a number or [undefined]. *)
Definition or_else (v : option number) (d : number) : number :=
  match v with
  | Some n => if truthy n then n else d
  | None => d
  end.

(** ** A JS [Map] with string keys

    A [Map] iterates in insertion order, and [Array.from(users.values())]
    exposes that order to a joining client, so the registry is an
    association list: [set] overwrites an existing key where it stands and
    appends a new one, so a key never stands twice, and [delete] drops the
    entry of its key. *)
Abbreviation JSMap V := (list (string * V)).

Section JSMap.
Context {V : Type}.
Implicit Types m : JSMap V.

Fixpoint Map_get (k : string) m : option V :=
  match m with
  | [] => None
  | (k', v) :: m' => if decide (k' = k) then Some v else Map_get k m'
  end.

Fixpoint Map_set (k : string) (v : V) m : JSMap V :=
  match m with
  | [] => [(k, v)]
  | (k', v') :: m' =>
      if decide (k' = k) then (k, v) :: m' else (k', v') :: Map_set k v m'
  end.

Definition Map_delete (k : string) m : JSMap V :=
  filter (fun e => e.1 <> k) m.

Definition Map_size m : nat := length m.

Definition Map_values m : list V := m.*2.

End JSMap.

(** ** Data model *)

Module Point.
Record t := mk { x : number; y : number; pressure : option number }.
End Point.

(** The points of an [erase] payload: [{ x, y, radius }].  [radius] may be
    missing from what a client sends, which [?.radius || 20] allows for. *)
Module ErasePoint.
Record t := mk { x : number; y : number; radius : option number }.
End ErasePoint.

Module Cursor.
Record t := mk { x : number; y : number }.
End Cursor.

Inductive OpType := type_draw | type_erase.

Module DrawingOperation.
Record t := mk {
  id : string;
  userId : string;
  type : OpType;
  points : list Point.t;
  color : string;
  strokeWidth : number;
  timestamp : number
}.

(** [operation.points.push(...pts)] *)
Definition push_points (pts : list Point.t) (op : t) : t :=
  mk (id op) (userId op) (type op) (points op ++ pts) (color op)
     (strokeWidth op) (timestamp op).
End DrawingOperation.

(** [Omit<DrawingOperation, 'timestamp'>], the payload of [draw-start]. *)
Module DrawStart.
Record t := mk {
  id : string;
  userId : string;
  type : OpType;
  points : list Point.t;
  color : string;
  strokeWidth : number
}.
End DrawStart.

Module User.
Record t := mk {
  id : string;
  name : string;
  color : string;
  cursor : option Cursor.t
}.

(** [user.cursor = c] *)
Definition set_cursor (c : Cursor.t) (u : t) : t :=
  mk (id u) (name u) (color u) (Some c).
End User.

(** ** Module-level state *)

Definition userColors : list string :=
  [ "#FF6B6B"; "#4ECDC4"; "#45B7D1"; "#FFA07A";
    "#98D8C8"; "#F7DC6F"; "#BB8FCE"; "#85C1E2" ].

(** [colorIndex] and [users.size] count connections; a JS number holds
    such a count exactly (up to 2^53), so they are natural numbers here. *)
Record State := mkState {
  drawingHistory : list DrawingOperation.t;
  users : JSMap User.t;
  colorIndex : nat
}.

(** The state when the process starts. *)
Definition initial : State := mkState [] [] 0.

(** ** What the server emits *)

(** The events sent to clients, with their payloads. *)
Inductive ServerEvent :=
| user_assigned (userId color name : string)
| initial_state (users : list User.t) (history : list DrawingOperation.t)
| user_joined (user : User.t)
| draw_start (operation : DrawingOperation.t)
| draw_move (operationId : string) (points : list Point.t)
| draw_end (operationId : string)
| user_cursor (userId : string) (cursor : Cursor.t) (id name color : string)
| get_user_callback (user : option User.t)
| operation_removed (operationId : option string)
| operation_added (operation : DrawingOperation.t)
| erase (operation : DrawingOperation.t)
| user_left (userId : string).

(** The three ways a listener addresses an event: [socket.emit] (and the
    acknowledgement callback), [socket.broadcast.emit], [io.emit]. *)
Inductive Target :=
| socket_emit (sid : string)
| socket_broadcast_emit (sid : string)
| io_emit.

Record Emit := mkEmit { target : Target; event : ServerEvent }.

(** socket.io's routing, over the ids of the sockets connected at the time:
    [socket.emit] reaches the socket itself, [socket.broadcast.emit] every
    socket but the sender, [io.emit] every socket. *)
Definition recipients (connected : list string) (t : Target) : list string :=
  match t with
  | socket_emit sid => filter (fun c => c = sid) connected
  | socket_broadcast_emit sid => filter (fun c => c <> sid) connected
  | io_emit => connected
  end.

(** ** Listeners as state-and-output computations

    A listener reads and writes the module-level state and emits events as
    it goes; [Handler] threads both, so that a listener below reads
    statement for statement like its source. *)
Definition Handler (A : Type) : Type := State -> A * State * list Emit.

Global Instance Handler_ret : MRet Handler :=
  fun A (a : A) st => (a, st, []).

Global Instance Handler_bind : MBind Handler :=
  fun A B (f : A -> Handler B) (m : Handler A) st =>
    let '(a, st1, out1) := m st in
    let '(b, st2, out2) := f a st1 in
    (b, st2, out1 ++ out2).

(** State after a listener has run, and what it emitted. *)
Definition exec (h : Handler unit) (st : State) : State * list Emit :=
  let '(_, st', out) := h st in (st', out).

Definition emit (t : Target) (e : ServerEvent) : Handler unit :=
  fun st => (tt, st, [mkEmit t e]).

(** *** [colorIndex] *)
Definition read_colorIndex : Handler nat :=
  fun st => (colorIndex st, st, []).

Definition write_colorIndex (n : nat) : Handler unit :=
  fun st => (tt, mkState (drawingHistory st) (users st) n, []).

(** *** [users] *)
Definition users_size : Handler nat :=
  fun st => (Map_size (users st), st, []).

Definition users_get (k : string) : Handler (option User.t) :=
  fun st => (Map_get k (users st), st, []).

Definition users_set (k : string) (u : User.t) : Handler unit :=
  fun st =>
    (tt, mkState (drawingHistory st) (Map_set k u (users st)) (colorIndex st), []).

Definition users_delete (k : string) : Handler unit :=
  fun st =>
    (tt, mkState (drawingHistory st) (Map_delete k (users st)) (colorIndex st), []).

Definition users_values : Handler (list User.t) :=
  fun st => (Map_values (users st), st, []).

(** *** [drawingHistory] *)
Definition history : Handler (list DrawingOperation.t) :=
  fun st => (drawingHistory st, st, []).

Definition history_length : Handler nat :=
  fun st => (length (drawingHistory st), st, []).

(** [drawingHistory.push(op)] *)
Definition history_push (op : DrawingOperation.t) : Handler unit :=
  fun st =>
    (tt, mkState (drawingHistory st ++ [op]) (users st) (colorIndex st), []).

(** [drawingHistory.pop()]: the last element, [undefined] on an empty
    array, and the array without it. *)
Definition history_pop : Handler (option DrawingOperation.t) :=
  fun st =>
    (last (drawingHistory st),
     mkState (removelast (drawingHistory st)) (users st) (colorIndex st), []).

(** The test of [find] in [draw-move]: [op => op.id === operationId]. *)
Definition bears (operationId : string) (op : DrawingOperation.t) : Prop :=
  DrawingOperation.id op = operationId.

Global Instance bears_dec operationId op : Decision (bears operationId op).
Proof. unfold bears. apply _. Defined.

(** [drawingHistory.find(op => op.id === operationId)]: the first match in
    array order.  What [find] returns is a reference to the object held by
    the array, which is its position here. *)
Definition history_find (operationId : string) : Handler (option nat) :=
  fun st =>
    (fst <$> list_find (bears operationId) (drawingHistory st), st, []).

(** [operation.points.push(...pts)] through such a reference. *)
Definition points_push (ref : nat) (pts : list Point.t) : Handler unit :=
  fun st =>
    (tt,
     mkState (alter (DrawingOperation.push_points pts) ref (drawingHistory st))
             (users st) (colorIndex st),
     []).

(** The Operation [draw-start] builds: [{ ...data, timestamp: Date.now() }],
    where [t] is what [Date.now()] returns. *)
Definition started (t : number) (data : DrawStart.t) : DrawingOperation.t :=
  DrawingOperation.mk (DrawStart.id data) (DrawStart.userId data)
    (DrawStart.type data) (DrawStart.points data) (DrawStart.color data)
    (DrawStart.strokeWidth data) t.

(** The Operation [erase] builds, for the socket [sid]:
    [points.map(p => ({ x: p.x, y: p.y }))], the colour ['#FFFFFF'],
    [points[0]?.radius || 20] and [Date.now()]. *)
Definition erased (sid : string) (t : number) (operationId : string)
    (points : list ErasePoint.t) : DrawingOperation.t :=
  DrawingOperation.mk operationId sid type_erase
    ((fun p => Point.mk (ErasePoint.x p) (ErasePoint.y p) None) <$> points)
    "#FFFFFF"
    (or_else (head points ≫= ErasePoint.radius) 20%float)
    t.

(** ** The listeners *)

(** [io.on('connection', ...)], up to the registration of the listeners. *)
Definition on_connection (sid : string) : Handler unit :=
  index ← read_colorIndex;
  let color := default "" (userColors !! (index mod length userColors)) in
  write_colorIndex (index + 1);;
  size ← users_size;
  let userName := "User " +:+ pretty (size + 1) in
  let user := User.mk sid userName color None in
  users_set sid user;;
  emit (socket_emit sid) (user_assigned sid color userName);;
  all ← users_values;
  log ← history;
  emit (socket_emit sid) (initial_state all log);;
  emit (socket_broadcast_emit sid) (user_joined user).

(** [socket.on('draw-start', ...)] *)
Definition on_draw_start (sid : string) (now : number) (data : DrawStart.t)
  : Handler unit :=
  let operation := started now data in
  history_push operation;;
  emit (socket_broadcast_emit sid) (draw_start operation).

(** [socket.on('draw-move', ...)] *)
Definition on_draw_move (sid : string) (operationId : string)
    (points : list Point.t) : Handler unit :=
  operation ← history_find operationId;
  match operation with
  | Some ref => points_push ref points
  | None => mret tt
  end;;
  emit (socket_broadcast_emit sid) (draw_move operationId points).

(** [socket.on('draw-end', ...)] *)
Definition on_draw_end (sid : string) (operationId : string) : Handler unit :=
  emit (socket_broadcast_emit sid) (draw_end operationId).

(** [socket.on('cursor-move', ...)] *)
Definition on_cursor_move (sid : string) (cursor : Cursor.t) : Handler unit :=
  user ← users_get sid;
  match user with
  | Some u =>
      users_set sid (User.set_cursor cursor u);;
      emit (socket_broadcast_emit sid)
           (user_cursor sid cursor (User.id u) (User.name u) (User.color u))
  | None => mret tt
  end.

(** [socket.on('get-user', ...)]: the callback answers the asking socket. *)
Definition on_get_user (sid : string) (userId : string) : Handler unit :=
  user ← users_get userId;
  emit (socket_emit sid) (get_user_callback user).

(** [socket.on('undo', ...)] *)
Definition on_undo : Handler unit :=
  len ← history_length;
  if (0 <? len)%nat then
    removedOp ← history_pop;
    emit io_emit (operation_removed (DrawingOperation.id <$> removedOp))
  else mret tt.

(** [socket.on('redo', ...)] *)
Definition on_redo (operation : DrawingOperation.t) : Handler unit :=
  history_push operation;;
  emit io_emit (operation_added operation).

(** [socket.on('erase', ...)] *)
Definition on_erase (sid : string) (now : number) (operationId : string)
    (points : list ErasePoint.t) : Handler unit :=
  let operation := erased sid now operationId points in
  history_push operation;;
  emit (socket_broadcast_emit sid) (erase operation).

(** [socket.on('disconnect', ...)] *)
Definition on_disconnect (sid : string) : Handler unit :=
  users_delete sid;;
  emit (socket_broadcast_emit sid) (user_left sid).

(** ** The event loop *)

(** What a socket can deliver to the server. *)
Inductive ClientEvent :=
| recv_connection
| recv_draw_start (data : DrawStart.t)
| recv_draw_move (operationId : string) (points : list Point.t)
| recv_draw_end (operationId : string)
| recv_cursor_move (cursor : Cursor.t)
| recv_get_user (userId : string)
| recv_undo
| recv_redo (operation : DrawingOperation.t)
| recv_erase (operationId : string) (points : list ErasePoint.t)
| recv_disconnect.

(** An arrival: the socket it came through, the clock reading when its
    listener runs, and the event. *)
Record Inbound := mkInbound {
  socket_id : string;
  now : number;
  received : ClientEvent
}.

Definition handle (i : Inbound) : Handler unit :=
  match received i with
  | recv_connection => on_connection (socket_id i)
  | recv_draw_start data => on_draw_start (socket_id i) (now i) data
  | recv_draw_move operationId points =>
      on_draw_move (socket_id i) operationId points
  | recv_draw_end operationId => on_draw_end (socket_id i) operationId
  | recv_cursor_move cursor => on_cursor_move (socket_id i) cursor
  | recv_get_user userId => on_get_user (socket_id i) userId
  | recv_undo => on_undo
  | recv_redo operation => on_redo operation
  | recv_erase operationId points =>
      on_erase (socket_id i) (now i) operationId points
  | recv_disconnect => on_disconnect (socket_id i)
  end.

(** One arrival: the next state. *)
Definition step (st : State) (i : Inbound) : State := (exec (handle i) st).1.

(** The arrivals of a trace, handled one after the other in arrival order. *)
Definition run (st : State) (tr : list Inbound) : State := foldl step st tr.

(** The states the server can be in are the [run initial tr]. *)

(** ** Traces

    What the properties of whole runs are stated with: how many connections
    a trace holds, and which Operations its events put on the log. *)

Definition is_connection (i : Inbound) : bool :=
  match received i with recv_connection => true | _ => false end.

(** The number of [connection] events of a trace. *)
Definition connections (tr : list Inbound) : nat :=
  length (filter (fun i => is_connection i) tr).

(** An Operation without its points, which [draw-move] keeps growing after
    the Operation has entered the log. *)
Definition header (op : DrawingOperation.t) : DrawingOperation.t :=
  DrawingOperation.mk (DrawingOperation.id op) (DrawingOperation.userId op)
    (DrawingOperation.type op) [] (DrawingOperation.color op)
    (DrawingOperation.strokeWidth op) (DrawingOperation.timestamp op).

(** The Operations created by the "start" events of a trace ([draw-start]
    and [erase]), in arrival order. *)
Definition created_by (i : Inbound) : list DrawingOperation.t :=
  match received i with
  | recv_draw_start data => [started (now i) data]
  | recv_erase operationId points =>
      [erased (socket_id i) (now i) operationId points]
  | _ => []
  end.

Definition created (tr : list Inbound) : list DrawingOperation.t :=
  tr ≫= created_by.

(** The Operations appended by the events of a trace, in arrival order:
    those of the "start" events and those resupplied through [redo]. *)
Definition appended_by (i : Inbound) : list DrawingOperation.t :=
  match received i with
  | recv_redo operation => [operation]
  | _ => created_by i
  end.

Definition appended (tr : list Inbound) : list DrawingOperation.t :=
  tr ≫= appended_by.

Definition is_redo (i : Inbound) : bool :=
  match received i with recv_redo _ => true | _ => false end.

(** ** Sample data, for the examples below *)

Definition stroke (operationId userId : string) : DrawStart.t :=
  DrawStart.mk operationId userId type_draw
    [Point.mk 1%float 2%float None] "#000000" 5%float.

Definition sample_op (operationId userId : string) : DrawingOperation.t :=
  started 1000%float (stroke operationId userId).

Definition arrival (sid : string) (e : ClientEvent) : Inbound :=
  mkInbound sid 1000%float e.

(** ** Observing the server *)

(** What the listener of an arrival emits. *)
Definition emitted (st : State) (i : Inbound) : list Emit :=
  (exec (handle i) st).2.

(** Whether an event addressed with [t] comes to the connected socket [c]
    (see [recipients]). *)
Definition reaches (c : string) (t : Target) : bool :=
  match t with
  | socket_emit sid => bool_decide (c = sid)
  | socket_broadcast_emit sid => bool_decide (c <> sid)
  | io_emit => true
  end.

(** The events the connected socket [c] receives out of what a listener
    emitted, in order. *)
Definition inbox (c : string) (out : list Emit) : list ServerEvent :=
  event <$> filter (fun e => reaches c (target e)) out.

Definition Map_keys {V} (m : JSMap V) : list string := m.*1.

(** A well-formed registry: no key stands twice, every user is filed under
    its own id and wears a colour of the palette. *)
Definition registry_ok (m : JSMap User.t) : Prop :=
  NoDup (Map_keys m)
  /\ Forall (fun e => User.id e.2 = e.1 /\ User.color e.2 ∈ userColors) m.

Definition is_disconnect (i : Inbound) : bool :=
  match received i with recv_disconnect => true | _ => false end.

Definition is_undo (i : Inbound) : bool :=
  match received i with recv_undo => true | _ => false end.

(** The events whose listeners write to [drawingHistory], and those whose
    listeners write to [users]. *)
Definition writes_log (e : ClientEvent) : bool :=
  match e with
  | recv_draw_start _ | recv_draw_move _ _ | recv_undo | recv_redo _
  | recv_erase _ _ => true
  | _ => false
  end.

Definition writes_registry (e : ClientEvent) : bool :=
  match e with
  | recv_connection | recv_cursor_move _ | recv_disconnect => true
  | _ => false
  end.

(** The id, name and colour of a user: what never changes once assigned. *)
Definition public (u : User.t) : string * string * string :=
  (User.id u, User.name u, User.color u).

(** The number of [undo] events of a trace. *)
Definition undos (tr : list Inbound) : nat :=
  length (filter (fun i => is_undo i) tr).

(** What [draw-move] may do to an Operation: leave all of it but the points,
    and add points after those it has. *)
Definition grown (old new : DrawingOperation.t) : Prop :=
  header new = header old
  /\ DrawingOperation.points old `prefix_of` DrawingOperation.points new.

(** The events whose listeners send something back to the socket they came
    from: [connection] and [get-user] with [socket.emit], [undo] and [redo]
    with [io.emit]. *)
Definition answered (e : ClientEvent) : bool :=
  match e with
  | recv_connection | recv_get_user _ | recv_undo | recv_redo _ => true
  | _ => false
  end.

(** Addressed with [socket.emit]. *)
Definition is_private (t : Target) : bool :=
  match t with socket_emit _ => true | _ => false end.

(** The ways the listeners of the socket [sid] address what they emit. *)
Definition addressed_from (sid : string) (t : Target) : Prop :=
  t = socket_emit sid \/ t = socket_broadcast_emit sid \/ t = io_emit.

(** The colour of [sid] in the registry once its connection has been
    handled in the state [st]. *)
Definition colour_on_joining (st : State) (sid : string) (t : number)
  : option string :=
  User.color <$> Map_get sid (users (step st (mkInbound sid t recv_connection))).

(** ** The client's user list ([components/UserList.tsx])

    The component keeps [users] and [currentUserId] and has one listener
    per server event it cares for; React applies the updater functions it
    is handed one after the other, each to the state the one before left. *)
Module UserList.

Record t := mk { users : list User.t; currentUserId : option string }.

(** [useState<User[]>([])], [useState<string | null>(null)] *)
Definition initial : t := mk [] None.

(** [socket.on('user-joined', ...)]:
    [!prev.find(u => u.id === user.id) ? [...prev, user] : prev] *)
Definition on_user_joined (user : User.t) (prev : list User.t) : list User.t :=
  match list_find (fun u => User.id u = User.id user) prev with
  | None => prev ++ [user]
  | Some _ => prev
  end.

(** [socket.on('user-left', ...)]: [prev.filter(u => u.id !== userId)] *)
Definition on_user_left (userId : string) (prev : list User.t) : list User.t :=
  filter (fun u => User.id u <> userId) prev.

(** [socket.on('user-cursor', ...)]:
    [prev.map(u => u.id === userId ? { ...u, cursor } : u)] *)
Definition on_user_cursor (userId : string) (cursor : Cursor.t)
    (prev : list User.t) : list User.t :=
  (fun u => if decide (User.id u = userId) then User.set_cursor cursor u else u)
    <$> prev.

(** The listeners, by event; an event without a listener is dropped. *)
Definition on (e : ServerEvent) (s : t) : t :=
  match e with
  | user_assigned userId _ _ => mk (users s) (Some userId)
  | initial_state all _ => mk all (currentUserId s)
  | user_joined user => mk (on_user_joined user (users s)) (currentUserId s)
  | user_left userId => mk (on_user_left userId (users s)) (currentUserId s)
  | user_cursor userId cursor _ _ _ =>
      mk (on_user_cursor userId cursor (users s)) (currentUserId s)
  | _ => s
  end.

(** The listeners at work on the events of a list, one after the other:
    what the component makes of them while its listeners are on the
    socket.  How long they are is the matter of [Page] below. *)
Definition hear (events : list ServerEvent) (s : t) : t :=
  foldl (fun s e => on e s) s events.

End UserList.

(** The events the socket [c] receives, in order, while the server handles
    the arrivals of [tr] one after the other, from the state [st] on. *)
Fixpoint heard (c : string) (st : State) (tr : list Inbound)
  : list ServerEvent :=
  match tr with
  | [] => []
  | i :: tr => inbox c (emitted st i) ++ heard c (step st i) tr
  end.

(** The list [p.2] of the socket [c] holds the users the server has
    registered in [p.1], in the same order, and knows who it is. *)
Definition synced (c : string) (p : State * UserList.t) : Prop :=
  registry_ok (users p.1)
  /\ User.id <$> UserList.users p.2 = Map_keys (users p.1)
  /\ UserList.currentUserId p.2 = Some c.

(** ** Canvas utilities ([lib/canvas-utils.ts]) *)

(** The test of [optimizePath] on an inner point: the distance from [curr]
    to the line through [prev] and [next] is above the threshold.  The
    arithmetic is the doubles' own; a comparison with [NaN] (from [0 / 0],
    when [prev] and [next] coincide) is false. *)
Definition off_line (threshold : number) (prev curr next : Point.t) : bool :=
  let dx := (Point.x next - Point.x prev)%float in
  let dy := (Point.y next - Point.y prev)%float in
  let dist :=
    PrimFloat.abs
      ((dy * Point.x curr - dx * Point.y curr
        + Point.x next * Point.y prev - Point.y next * Point.x prev)
       / PrimFloat.sqrt (dx * dx + dy * dy))%float in
  (threshold <? dist)%float.

(** One turn of the loop of [optimizePath], for the index [i]. *)
Definition optimize_at (threshold : number) (points : list Point.t)
    (optimized : list Point.t) (i : nat) : list Point.t :=
  match points !! (i - 1), points !! i, points !! (i + 1) with
  | Some prev, Some curr, Some next =>
      if off_line threshold prev curr next then optimized ++ [curr]
      else optimized
  | _, _, _ => optimized
  end.

(** [optimizePath(points, threshold)]: the first point, the inner points
    the test keeps ([i] from [1] to [points.length - 2]), the last point. *)
Definition optimizePath (points : list Point.t) (threshold : number)
  : list Point.t :=
  if (length points <? 2)%nat then points
  else
    let optimized :=
      foldl (optimize_at threshold points) (option_list (points !! 0))
            (seq 1 (length points - 2)) in
    optimized ++ option_list (points !! (length points - 1)).

(** [createBatcher(callback, delay)]: the queue and whether a timeout is
    pending.  Time itself is left out: a pending timeout fires at some
    later turn of the event loop. *)
Module Batcher.
Section Batcher.
Context {T : Type}.

Record t := mk { queue : list T; timer : bool }.

Definition initial : t := mk [] false.

(** The function [createBatcher] returns:
    [queue.push(item); if (!timer) timer = setTimeout(...)]. *)
Definition push (item : T) (b : t) : t :=
  let queue := queue b ++ [item] in
  if negb (timer b) then mk queue true else mk queue (timer b).

(** The timeout: [callback(queue); queue = []; timer = null].  It hands
    the queue to the callback. *)
Definition timeout (b : t) : t * list T := (mk [] false, queue b).

(** What happens to a batcher: a call with an item, or its timeout. *)
Inductive turn := call (item : T) | fire.

(** The turns of a schedule one after the other, with the batches handed
    to the callback in order; [None] for a schedule that fires a timeout
    nobody has set. *)
Fixpoint play (b : t) (turns : list turn) : option (t * list (list T)) :=
  match turns with
  | [] => Some (b, [])
  | call item :: rest => play (push item b) rest
  | fire :: rest =>
      if timer b then
        let '(b', batch) := timeout b in
        '(b'', batches) ← play b' rest;
        Some (b'', batch :: batches)
      else None
  end.

(** The items a schedule calls the batcher with, in order. *)
Definition items (turns : list turn) : list T :=
  turns ≫= fun x => match x with call item => [item] | fire => [] end.

End Batcher.
Arguments t T : clear implicits.
Arguments turn T : clear implicits.
End Batcher.

(** ** The client's canvas ([components/DrawingCanvas.tsx])

    The component holds path objects by reference, in [historyRef],
    [futureRef] and [allPathsRef] at once: a [draw-move] pushes points onto
    the object [allPathsRef] gives, and [historyRef] sees them.  The
    objects live in [heap]; a reference is a position in it, and every
    payload that arrives is a new object. *)
Module Canvas.

Record t := mk {
  heap : list DrawingOperation.t;
  historyRef : list nat;
  futureRef : list nat;
  allPathsRef : JSMap nat
}.

(** [useRef([])], [useRef([])], [useRef(new Map())] *)
Definition initial : t := mk [] [] [] [].

(** [allPathsRef.current.set(path.id, path); historyRef.current.push(path)]
    for a path that has just arrived: the listeners of [draw-start],
    [erase] and [operation-added]. *)
Definition add_path (path : DrawingOperation.t) (s : t) : t :=
  let ref := length (heap s) in
  mk (heap s ++ [path]) (historyRef s ++ [ref]) (futureRef s)
     (Map_set (DrawingOperation.id path) ref (allPathsRef s)).

(** [socket.on('initial-state', ...)]:
    [data.history.forEach(path => allPathsRef.current.set(path.id, path));
     historyRef.current = [...data.history]] *)
Definition on_initial_state (history : list DrawingOperation.t) (s : t) : t :=
  let refs := seq (length (heap s)) (length history) in
  mk (heap s ++ history) refs (futureRef s)
     (foldl (fun m entry => Map_set (DrawingOperation.id entry.2) entry.1 m)
            (allPathsRef s) (zip refs history)).

(** [socket.on('draw-move', ...)]:
    [const path = allPathsRef.current.get(operationId);
     if (path) path.points.push(...points)] *)
Definition on_draw_move (operationId : string) (points : list Point.t) (s : t)
  : t :=
  match Map_get operationId (allPathsRef s) with
  | Some ref =>
      mk (alter (DrawingOperation.push_points points) ref (heap s))
         (historyRef s) (futureRef s) (allPathsRef s)
  | None => s
  end.

(** The test of [findIndex] in [operation-removed], on a reference:
    [p => p.id === operationId]. *)
Definition bears_at (heap : list DrawingOperation.t) (operationId : string)
    (ref : nat) : Prop :=
  DrawingOperation.id <$> heap !! ref = Some operationId.

Global Instance bears_at_dec heap operationId ref :
  Decision (bears_at heap operationId ref).
Proof. unfold bears_at. apply _. Defined.

(** [socket.on('operation-removed', ...)]: if [allPathsRef] knows the id,
    forget it there, and move the first path of [historyRef] that bears it
    to the front of [futureRef] ([unshift], [splice(index, 1)]).  An
    [operationId] of [undefined] is a key of no map. *)
Definition on_operation_removed (operationId : option string) (s : t) : t :=
  match operationId with
  | Some k =>
      match Map_get k (allPathsRef s) with
      | Some _ =>
          let all := Map_delete k (allPathsRef s) in
          match list_find (bears_at (heap s) k) (historyRef s) with
          | Some (index, ref) =>
              mk (heap s) (delete index (historyRef s)) (ref :: futureRef s) all
          | None => mk (heap s) (historyRef s) (futureRef s) all
          end
      | None => s
      end
  | None => s
  end.

(** The listeners, by event.  [draw-end] only redraws; the events about
    users have no listener here. *)
Definition on (e : ServerEvent) (s : t) : t :=
  match e with
  | initial_state _ history => on_initial_state history s
  | draw_start path => add_path path s
  | draw_move operationId points => on_draw_move operationId points s
  | erase path => add_path path s
  | operation_removed operationId => on_operation_removed operationId s
  | operation_added operation => add_path operation s
  | _ => s
  end.

(** [handleRedo]: with nothing in [futureRef] it does nothing; otherwise
    it takes the first path off [futureRef] and sends it as [redo]. *)
Definition handleRedo (s : t) : t * option ClientEvent :=
  match futureRef s with
  | [] => (s, None)
  | nextOp :: rest =>
      (mk (heap s) (historyRef s) rest (allPathsRef s),
       recv_redo <$> heap s !! nextOp)
  end.

(** [handleUndo]: with nothing in [historyRef] it does nothing; otherwise
    it sends [undo], and leaves the removal to [operation-removed]. *)
Definition handleUndo (s : t) : t * option ClientEvent :=
  match historyRef s with
  | [] => (s, None)
  | _ :: _ => (s, Some recv_undo)
  end.

(** What [redrawCanvas] goes through: the paths of [historyRef]. *)
Definition shown (s : t) : list (option DrawingOperation.t) :=
  (fun ref => heap s !! ref) <$> historyRef s.

End Canvas.

(** The canvas of the socket [c], fed what [c] receives. *)
Definition paint (c : string) (cv : Canvas.t) (out : list Emit) : Canvas.t :=
  foldl (fun s e => Canvas.on e s) cv (inbox c out).






(** Every connection of a trace comes from a socket that is not registered
    at that moment (socket.io gives each connection an id of its own). *)
Fixpoint fresh_sockets (st : State) (tr : list Inbound) : Prop :=
  match tr with
  | [] => True
  | i :: tr =>
      (is_connection i = true -> Map_get (socket_id i) (users st) = None)
      /\ fresh_sockets (step st i) tr
  end.

(** ** The page ([pages/index.tsx]) and the socket its components share
    ([lib/socket.ts])

    [getSocket] hands the one socket of the page to [DrawingCanvas],
    [CursorIndicator] and [UserList].  Each registers its listeners in an
    effect, and the cleanup of each effect calls [socket.off(event)]
    without a listener, which removes every listener of that event,
    whoever registered it.  The effects of [DrawingCanvas] and [UserList]
    run once: the dependencies of the first are the state setters of
    [Home], the second has none.  The effect of [CursorIndicator] depends
    on its [currentUserId]: React runs its cleanup and then the effect
    again once a render with another [currentUserId] has been committed. *)

(** The name under which an event comes to the listeners; the answer to
    [get-user] is an acknowledgement and comes to none. *)
Definition event_name (e : ServerEvent) : option string :=
  match e with
  | user_assigned _ _ _ => Some "user-assigned"
  | initial_state _ _ => Some "initial-state"
  | user_joined _ => Some "user-joined"
  | draw_start _ => Some "draw-start"
  | draw_move _ _ => Some "draw-move"
  | draw_end _ => Some "draw-end"
  | user_cursor _ _ _ _ _ => Some "user-cursor"
  | get_user_callback _ => None
  | operation_removed _ => Some "operation-removed"
  | operation_added _ => Some "operation-added"
  | erase _ => Some "erase"
  | user_left _ => Some "user-left"
  end.

Module Page.

(** Whose listener it is. *)
Inductive Component := of_DrawingCanvas | of_CursorIndicator | of_UserList.

Global Instance Component_eq_dec : EqDecision Component.
Proof. solve_decision. Defined.

(** The listeners on the socket, by event name and in the order of their
    registration; the refs of [DrawingCanvas]; the state of [UserList];
    of [CursorIndicator] its [currentUserId], and the [currentUserId] of
    the render whose effect is in place.  ([userCursors], with its timers,
    is display state on which no registration depends; it is not kept
    here.  Nor are the listeners of [connect] and [disconnect], which the
    server does not send.) *)
Record t := mk {
  listeners : list (string * Component);
  canvas : Canvas.t;
  userList : UserList.t;
  cursorUserId : option string;
  cursorDeps : option string
}.

(** [socket.on(name, listener)] *)
Definition socket_on (name : string) (who : Component)
    (table : list (string * Component)) : list (string * Component) :=
  table ++ [(name, who)].

(** [socket.off(name)] *)
Definition socket_off (name : string) (table : list (string * Component))
  : list (string * Component) :=
  filter (fun l => l.1 <> name) table.

(** The events [DrawingCanvas] listens to, in the order of its
    [socket.on] calls; those [CursorIndicator] and [UserList] listen to,
    which are the same, in the same order. *)
Definition canvas_events : list string :=
  [ "initial-state"; "draw-start"; "draw-move"; "draw-end"; "erase";
    "operation-removed"; "operation-added" ].

Definition user_events : list string :=
  [ "user-assigned"; "initial-state"; "user-joined"; "user-left";
    "user-cursor" ].

(** The body of an effect: one [socket.on] per event. *)
Definition subscribe (who : Component) (names : list string)
    (table : list (string * Component)) : list (string * Component) :=
  foldl (fun table name => socket_on name who table) table names.

(** The cleanup of an effect: one [socket.off] per event. *)
Definition cleanup (names : list string) (table : list (string * Component))
  : list (string * Component) :=
  foldl (fun table name => socket_off name table) table names.

(** The page once mounted: the effects have run in the order of the
    tree, [DrawingCanvas], [CursorIndicator], [UserList]. *)
Definition mounted : t :=
  mk (subscribe of_UserList user_events
        (subscribe of_CursorIndicator user_events
           (subscribe of_DrawingCanvas canvas_events [])))
     Canvas.initial UserList.initial None None.

(** The listener a component has registered, at work on an event.  Of
    the listeners of [CursorIndicator] only that of [user-assigned]
    writes to what is kept here: [setCurrentUserId(data.userId)]. *)
Definition call (who : Component) (e : ServerEvent) (s : t) : t :=
  match who with
  | of_DrawingCanvas =>
      mk (listeners s) (Canvas.on e (canvas s)) (userList s)
         (cursorUserId s) (cursorDeps s)
  | of_UserList =>
      mk (listeners s) (canvas s) (UserList.on e (userList s))
         (cursorUserId s) (cursorDeps s)
  | of_CursorIndicator =>
      match e with
      | user_assigned userId _ _ =>
          mk (listeners s) (canvas s) (userList s) (Some userId) (cursorDeps s)
      | _ => s
      end
  end.

(** An event arrives: the socket calls the listeners registered under its
    name, in the order of their registration. *)
Definition receive (e : ServerEvent) (s : t) : t :=
  match event_name e with
  | Some name =>
      foldl (fun s l => call l.2 e s) s
            (filter (fun l => l.1 = name) (listeners s))
  | None => s
  end.

(** React commits: the effect of [CursorIndicator] is run again if its
    [currentUserId] is not the one its effect in place was run with,
    cleanup first.  No other effect has a dependency that changes. *)
Definition commit (s : t) : t :=
  if decide (cursorUserId s = cursorDeps s) then s
  else
    mk (subscribe of_CursorIndicator user_events
          (cleanup user_events (listeners s)))
       (canvas s) (userList s) (cursorUserId s) (cursorUserId s).

(** What happens on the page, in the order in which it happens.  When
    React commits, relative to the arrival of the events, is up to its
    scheduler: [commits] may stand anywhere. *)
Inductive tick := receives (e : ServerEvent) | commits.

Definition turn (s : t) (k : tick) : t :=
  match k with
  | receives e => receive e s
  | commits => commit s
  end.

Definition play (s : t) (schedule : list tick) : t := foldl turn s schedule.

(** The listeners once the effect of [CursorIndicator] has been run
    again. *)
Definition rewired : list (string * Component) :=
  subscribe of_CursorIndicator user_events
    (cleanup user_events (listeners mounted)).

End Page.

(** ** Drawing with the pointer ([components/DrawingCanvas.tsx])

    [startDrawing], [draw] and [stopDrawing] work on the refs of the canvas
    and on two more, [isDrawingRef] and [currentPathRef]; the path being
    drawn is the object the history and [allPathsRef] hold.  The point
    under the pointer, the tool, colour and width chosen, the id made from
    [Date.now()] and [Math.random()], the clock and the id of the socket
    are inputs.  The flags for the toolbar buttons are not part of it. *)
Module Pen.

Inductive Tool := brush | eraser.

Record t := mk {
  canvas : Canvas.t;
  isDrawingRef : bool;
  currentPathRef : option nat
}.

Definition initial : t := mk Canvas.initial false None.

(** What a callback sends: at once with [socket.emit], or through the
    batcher of [draw-move]s. *)
Inductive Sent :=
| socket_send (e : ClientEvent)
| batchDrawMove (operationId : string) (points : list Point.t).

(** [socket.id || 'unknown'] *)
Definition userId_of (socketId : option string) : string :=
  match socketId with
  | Some sid => if decide (sid = "") then "unknown" else sid
  | None => "unknown"
  end.

(** [currentPathRef.current.points = points] *)
Definition set_points (points : list Point.t) (path : DrawingOperation.t)
  : DrawingOperation.t :=
  DrawingOperation.mk (DrawingOperation.id path) (DrawingOperation.userId path)
    (DrawingOperation.type path) points (DrawingOperation.color path)
    (DrawingOperation.strokeWidth path) (DrawingOperation.timestamp path).

Definition startDrawing (isConnected : bool) (socketId : option string)
    (tool : Tool) (currentColor : string) (strokeWidth : number)
    (operationId : string) (now : number) (point : Point.t) (s : t)
  : t * list Sent :=
  if negb isConnected then (s, [])
  else
    let newPath :=
      DrawingOperation.mk operationId (userId_of socketId)
        (match tool with eraser => type_erase | brush => type_draw end)
        [point]
        (match tool with eraser => "#FFFFFF" | brush => currentColor end)
        (match tool with eraser => strokeWidth * 2 | brush => strokeWidth end)%float
        now in
    let ref := length (Canvas.heap (canvas s)) in
    (mk (Canvas.add_path newPath (canvas s)) true (Some ref),
     [ socket_send
         match tool with
         | eraser =>
             recv_erase operationId
               [ErasePoint.mk (Point.x point) (Point.y point) (Some strokeWidth)]
         | brush =>
             recv_draw_start
               (DrawStart.mk operationId (userId_of socketId) type_draw
                  [point] currentColor strokeWidth)
         end ]).

(** [draw]: push the point, optimise the path with threshold 1, and send
    [optimized.slice(points.length - optimized.length)] if that is not
    empty ([optimizePath] never returns more points than it is given, so
    the index is not negative); then send the cursor. *)
Definition draw (tool : Tool) (strokeWidth : number) (point : Point.t) (s : t)
  : t * list Sent :=
  if negb (isDrawingRef s) then (s, [])
  else
    match currentPathRef s ≫= fun ref =>
            (fun path => (ref, path)) <$> Canvas.heap (canvas s) !! ref with
    | None => (s, [])
    | Some (ref, path) =>
        let pushed := DrawingOperation.points path ++ [point] in
        let optimized := optimizePath pushed 1%float in
        let newPoints := drop (length pushed - length optimized) optimized in
        let cursor :=
          socket_send (recv_cursor_move (Cursor.mk (Point.x point) (Point.y point))) in
        let put points :=
          mk (Canvas.mk (alter (set_points points) ref (Canvas.heap (canvas s)))
                (Canvas.historyRef (canvas s)) (Canvas.futureRef (canvas s))
                (Canvas.allPathsRef (canvas s)))
             (isDrawingRef s) (currentPathRef s) in
        if (0 <? length newPoints)%nat then
          (put optimized,
           [ match tool with
             | eraser =>
                 socket_send
                   (recv_erase (DrawingOperation.id path)
                      ((fun p => ErasePoint.mk (Point.x p) (Point.y p)
                                   (Some strokeWidth)) <$> newPoints))
             | brush => batchDrawMove (DrawingOperation.id path) newPoints
             end;
             cursor ])
        else (put pushed, [cursor])
    end.

Definition stopDrawing (tool : Tool) (s : t) : t * list Sent :=
  if negb (isDrawingRef s) then (s, [])
  else
    match currentPathRef s ≫= fun ref => Canvas.heap (canvas s) !! ref with
    | None => (s, [])
    | Some path =>
        (mk (canvas s) false None,
         match tool with
         | eraser => []
         | brush => [socket_send (recv_draw_end (DrawingOperation.id path))]
         end)
    end.

(** The path under the pen. *)
Definition currentPath (s : t) : option DrawingOperation.t :=
  currentPathRef s ≫= fun ref => Canvas.heap (canvas s) !! ref.

End Pen.

(** * Properties *)

(** ** The registry operations *)

Section JSMap_facts.
Context {V : Type}.
Implicit Types (m : JSMap V) (k : string) (v : V).

Lemma Map_get_set_eq k v m : Map_get k (Map_set k v m) = Some v.
Proof.
  induction m as [|[k' v'] m IH]; simpl.
  - by rewrite decide_True.
  - destruct (decide (k' = k)) as [->|Hne]; simpl.
    + by rewrite decide_True.
    + by rewrite decide_False.
Qed.

Lemma Map_get_set_ne k k' v m :
  k <> k' -> Map_get k' (Map_set k v m) = Map_get k' m.
Proof.
  intros Hne. induction m as [|[k0 v0] m IH]; simpl.
  - by rewrite decide_False.
  - destruct (decide (k0 = k)) as [->|Hk0]; simpl.
    + by rewrite !decide_False.
    + by rewrite IH.
Qed.

Lemma Map_get_delete_eq k m : Map_get k (Map_delete k m) = None.
Proof.
  unfold Map_delete. induction m as [|[k' v'] m IH]; [done|].
  rewrite filter_cons. destruct (decide ((k', v').1 <> k)) as [Hk|Hk]; simpl in *.
  - by rewrite decide_False.
  - done.
Qed.

Lemma Map_get_delete_ne k k' m :
  k <> k' -> Map_get k' (Map_delete k m) = Map_get k' m.
Proof.
  intros Hne. unfold Map_delete. induction m as [|[k0 v0] m IH]; [done|].
  rewrite filter_cons. destruct (decide ((k0, v0).1 <> k)) as [Hk|Hk]; simpl in *.
  - by rewrite IH.
  - apply dec_stable in Hk as ->. by rewrite decide_False.
Qed.

End JSMap_facts.

(** ** What each listener does to the state, and what it emits *)

Ltac unfold_handler :=
  unfold exec, handle, on_connection, on_draw_start, on_draw_move,
    on_draw_end, on_cursor_move, on_get_user, on_undo, on_redo, on_erase,
    on_disconnect, mbind, Handler_bind, mret, Handler_ret, emit,
    read_colorIndex, write_colorIndex, users_size, users_get, users_set,
    users_delete, users_values, history, history_length, history_push,
    history_pop, history_find, points_push;
  cbn [received socket_id now drawingHistory users colorIndex app].

Lemma exec_on_connection sid st :
  exec (on_connection sid) st =
    let color := default "" (userColors !! (colorIndex st mod length userColors)) in
    let userName := "User " +:+ pretty (Map_size (users st) + 1) in
    let user := User.mk sid userName color None in
    let users' := Map_set sid user (users st) in
    (mkState (drawingHistory st) users' (colorIndex st + 1),
     [ mkEmit (socket_emit sid) (user_assigned sid color userName);
       mkEmit (socket_emit sid) (initial_state (Map_values users') (drawingHistory st));
       mkEmit (socket_broadcast_emit sid) (user_joined user) ]).
Proof. reflexivity. Qed.

Lemma exec_on_draw_start sid t data st :
  exec (on_draw_start sid t data) st =
    let operation := started t data in
    (mkState (drawingHistory st ++ [operation]) (users st) (colorIndex st),
     [ mkEmit (socket_broadcast_emit sid) (draw_start operation) ]).
Proof. reflexivity. Qed.

Lemma exec_on_draw_move sid operationId points st :
  exec (on_draw_move sid operationId points) st =
    (match list_find (bears operationId) (drawingHistory st) with
     | Some (ref, _) =>
         mkState (alter (DrawingOperation.push_points points) ref (drawingHistory st))
                 (users st) (colorIndex st)
     | None => st
     end,
     [ mkEmit (socket_broadcast_emit sid) (draw_move operationId points) ]).
Proof.
  unfold_handler.
  by destruct (list_find _ _) as [[ref op]|].
Qed.

Lemma exec_on_cursor_move sid cursor st :
  exec (on_cursor_move sid cursor) st =
    match Map_get sid (users st) with
    | Some u =>
        (mkState (drawingHistory st)
                 (Map_set sid (User.set_cursor cursor u) (users st))
                 (colorIndex st),
         [ mkEmit (socket_broadcast_emit sid)
             (user_cursor sid cursor (User.id u) (User.name u) (User.color u)) ])
    | None => (st, [])
    end.
Proof. unfold_handler. by destruct (Map_get _ _). Qed.

Lemma exec_on_undo st :
  exec on_undo st =
    match drawingHistory st with
    | [] => (st, [])
    | _ :: _ =>
        (mkState (removelast (drawingHistory st)) (users st) (colorIndex st),
         [ mkEmit io_emit
             (operation_removed (DrawingOperation.id <$> last (drawingHistory st))) ])
    end.
Proof. destruct st as [[|op log] registry index]; reflexivity. Qed.

Lemma exec_on_redo operation st :
  exec (on_redo operation) st =
    (mkState (drawingHistory st ++ [operation]) (users st) (colorIndex st),
     [ mkEmit io_emit (operation_added operation) ]).
Proof. reflexivity. Qed.

Lemma exec_on_erase sid t operationId points st :
  exec (on_erase sid t operationId points) st =
    let operation := erased sid t operationId points in
    (mkState (drawingHistory st ++ [operation]) (users st) (colorIndex st),
     [ mkEmit (socket_broadcast_emit sid) (erase operation) ]).
Proof. reflexivity. Qed.

Lemma exec_on_disconnect sid st :
  exec (on_disconnect sid) st =
    (mkState (drawingHistory st) (Map_delete sid (users st)) (colorIndex st),
     [ mkEmit (socket_broadcast_emit sid) (user_left sid) ]).
Proof. reflexivity. Qed.

(** Running a trace, one arrival at a time. *)
Lemma run_cons st i tr : run st (i :: tr) = run (step st i) tr.
Proof. reflexivity. Qed.

Lemma run_snoc st tr i : run st (tr ++ [i]) = step (run st tr) i.
Proof. unfold run. by rewrite foldl_snoc. Qed.

Lemma run_app st tr1 tr2 : run st (tr1 ++ tr2) = run (run st tr1) tr2.
Proof. unfold run. by rewrite foldl_app. Qed.

(** ** Undo and redo *)

(** C1 — Undo on a non-empty log removes exactly the tail Operation,
    whoever authored it and whoever asks, and emits its id with [io.emit],
    which reaches every connected socket, the asking one included.  Undo on
    an empty log changes nothing and emits nothing. *)
Theorem undo_pops_tail_for_everyone (st : State) (sid : string) (t : number) :
  let undo := mkInbound sid t recv_undo in
  (forall log op,
      drawingHistory st = log ++ [op] ->
      exec (handle undo) st =
        (mkState log (users st) (colorIndex st),
         [ mkEmit io_emit (operation_removed (Some (DrawingOperation.id op))) ])
      /\ forall connected, recipients connected io_emit = connected)
  /\ (drawingHistory st = [] -> exec (handle undo) st = (st, [])).
Proof.
  simpl. unfold handle; simpl. rewrite exec_on_undo. split.
  - intros log op Hlog. split; [|done].
    rewrite Hlog, removelast_last, last_snoc.
    by destruct log.
  - by intros ->.
Qed.

Lemma undo_pops_tail_for_everyone_witness :
  exec (handle (arrival "s2" recv_undo))
       (mkState [sample_op "a" "s1"; sample_op "b" "s2"] [] 0) =
    (mkState [sample_op "a" "s1"] [] 0,
     [ mkEmit io_emit (operation_removed (Some "b")) ])
  /\ exec (handle (arrival "s2" recv_undo)) initial = (initial, []).
Proof.
  split.
  - apply (proj1 (undo_pops_tail_for_everyone
                    (mkState [sample_op "a" "s1"; sample_op "b" "s2"] [] 0)
                    "s2" 1000%float)
             [sample_op "a" "s1"] (sample_op "b" "s2")).
    reflexivity.
  - apply (proj2 (undo_pops_tail_for_everyone initial "s2" 1000%float)).
    reflexivity.
Defined.

(** C2, as the spec has it, fails: after an undo and the redo that follows
    it at once, the Operation is back at the tail, and the tail is the very
    index it had before the undo. *)
Lemma undo_redo_not_at_original_index_counterexample :
  let op := sample_op "b" "s2" in
  let st := mkState [sample_op "a" "s1"; op] [] 0 in
  let st' := run st [arrival "s1" recv_undo; arrival "s1" (recv_redo op)] in
  ~ (length (drawingHistory st') = length (drawingHistory st)
     /\ last (drawingHistory st') = Some op
     /\ forall i, drawingHistory st !! i = Some op ->
                  drawingHistory st' !! i <> Some op).
Proof. intros op st st' (_ & _ & Hmoved). by apply (Hmoved 1). Qed.

(** C2, amended — On a non-empty log, an undo followed at once by a redo
    that resupplies the removed Operation gives back the log as it was
    before the undo: the same length, that Operation at the tail, which is
    the index it had.  Whatever Operation the client supplies, redo appends
    exactly it at the tail and emits it with [io.emit], to every connected
    socket. *)
Theorem undo_then_redo_restores_log
    (st : State) (sid sid' : string) (t t' : number)
    (log : list DrawingOperation.t) (op : DrawingOperation.t) :
  drawingHistory st = log ++ [op] ->
  let st1 := step st (mkInbound sid t recv_undo) in
  let st2 := step st1 (mkInbound sid' t' (recv_redo op)) in
  drawingHistory st2 = drawingHistory st
  /\ length (drawingHistory st2) = length (drawingHistory st)
  /\ last (drawingHistory st2) = Some op
  /\ drawingHistory st !! length log = Some op
  /\ drawingHistory st2 !! length log = Some op
  /\ (forall (st0 : State) (supplied : DrawingOperation.t),
        exec (handle (mkInbound sid' t' (recv_redo supplied))) st0 =
          (mkState (drawingHistory st0 ++ [supplied])
                   (users st0) (colorIndex st0),
           [ mkEmit io_emit (operation_added supplied) ]))
  /\ forall connected, recipients connected io_emit = connected.
Proof.
  intros Hlog st1 st2.
  assert (drawingHistory st1 = log) as Hst1.
  { subst st1. unfold step, handle; simpl. rewrite exec_on_undo, Hlog.
    rewrite removelast_last. by destruct log. }
  assert (drawingHistory st2 = drawingHistory st) as Hst2.
  { subst st2. unfold step, handle; simpl. by rewrite Hst1, Hlog. }
  rewrite Hst2, Hlog. split_and!; try done.
  - apply last_snoc.
  - apply list_lookup_middle; done.
  - apply list_lookup_middle; done.
Qed.

Lemma undo_then_redo_restores_log_witness :
  let op := sample_op "b" "s2" in
  let st := mkState [sample_op "a" "s1"; op] [] 0 in
  let st' := step (step st (arrival "s1" recv_undo)) (arrival "s3" (recv_redo op)) in
  drawingHistory st' = drawingHistory st.
Proof.
  intros op st st'.
  apply (undo_then_redo_restores_log st "s1" "s3" 1000%float 1000%float
           [sample_op "a" "s1"] op).
  reflexivity.
Defined.

(** ** The order of the log *)

Lemma header_push_points pts op :
  header (DrawingOperation.push_points pts op) = header op.
Proof. reflexivity. Qed.

(** Appending points leaves the headers of the log as they were. *)
Lemma header_alter_push_points pts ref (log : list DrawingOperation.t) :
  header <$> alter (DrawingOperation.push_points pts) ref log = header <$> log.
Proof.
  rewrite (list_fmap_alter header _ id).
  - by apply list_alter_id.
  - by apply Forall_forall.
Qed.

Lemma removelast_sublist {A} (l : list A) : removelast l `sublist_of` l.
Proof. rewrite removelast_firstn_len. apply sublist_take. Qed.

(** One arrival keeps the log in order and adds at most what the arrival
    appends, at the tail. *)
Lemma step_log_order st i :
  header <$> drawingHistory (step st i)
    `sublist_of` (header <$> drawingHistory st) ++ (header <$> appended_by i).
Proof.
  destruct i as [sid t e]. unfold step, handle, appended_by, created_by.
  destruct e; cbn [received socket_id now].
  - simpl. by rewrite app_nil_r.
  - rewrite exec_on_draw_start. simpl. by rewrite fmap_app.
  - rewrite exec_on_draw_move. cbn [fst fmap list_fmap]. rewrite app_nil_r.
    destruct (list_find _ _) as [[ref found]|]; [|done].
    cbn [drawingHistory]. by rewrite header_alter_push_points.
  - simpl. by rewrite app_nil_r.
  - rewrite exec_on_cursor_move. cbn [fmap list_fmap]. rewrite app_nil_r.
    by destruct (Map_get _ _).
  - simpl. by rewrite app_nil_r.
  - rewrite exec_on_undo. cbn [fmap list_fmap]. rewrite app_nil_r.
    destruct (drawingHistory st) as [|op log] eqn:Hlog; cbn [fst drawingHistory].
    + by rewrite Hlog.
    + apply fmap_sublist, removelast_sublist.
  - rewrite exec_on_redo. simpl. by rewrite fmap_app.
  - rewrite exec_on_erase. simpl. by rewrite fmap_app.
  - simpl. by rewrite app_nil_r.
Qed.

Lemma run_log_order st tr :
  header <$> drawingHistory (run st tr)
    `sublist_of` (header <$> drawingHistory st) ++ (header <$> appended tr).
Proof.
  induction tr as [|i tr IH] using rev_ind.
  - simpl. by rewrite app_nil_r.
  - rewrite run_snoc. unfold appended. rewrite bind_app, bind_singleton.
    rewrite fmap_app, (assoc_L (++)).
    etrans; [apply step_log_order|].
    by apply sublist_app.
Qed.

(** A trace without redo appends what its "start" events create. *)
Lemma appended_without_redo tr :
  Forall (fun i => is_redo i = false) tr -> appended tr = created tr.
Proof.
  unfold appended, created. induction 1 as [|i tr Hi _ IH]; [done|].
  rewrite !bind_cons, IH. f_equal.
  unfold appended_by, is_redo in *. by destruct (received i).
Qed.

Lemma log_order_without_redo tr :
  Forall (fun i => is_redo i = false) tr ->
  header <$> drawingHistory (run initial tr) `sublist_of` header <$> created tr.
Proof. intros Hno. rewrite <- appended_without_redo by done. apply run_log_order. Qed.

(** C3, as the spec has it, fails: two strokes undone and then redone in
    the other order stand in the log in the order of the redos, not in the
    order in which their "start" events arrived. *)
Lemma log_order_is_not_start_order_counterexample :
  let a := stroke "a" "s1" in
  let b := stroke "b" "s2" in
  let tr :=
    [ arrival "s1" (recv_draw_start a); arrival "s2" (recv_draw_start b);
      arrival "s1" recv_undo; arrival "s1" recv_undo;
      arrival "s2" (recv_redo (sample_op "b" "s2"));
      arrival "s1" (recv_redo (sample_op "a" "s1")) ] in
  ~ (header <$> drawingHistory (run initial tr) `sublist_of` header <$> created tr).
Proof.
  intros a b tr Hsub.
  apply (fmap_sublist DrawingOperation.id) in Hsub.
  vm_compute in Hsub.
  apply sublist_cons_l in Hsub as (k1 & k2 & Hk & Hrest).
  destruct k1 as [|x1 [|x2 [|x3 k1]]]; simplify_eq/=.
  by apply sublist_nil_r in Hrest.
Qed.

(** C3, amended — At every reachable state the Operations of the log stand
    in the arrival order of the events that appended them: the "start"
    events ([draw-start], [erase]) and [redo], which puts the Operation a
    client resupplies at the tail. *)
Theorem log_order_is_append_order (tr : list Inbound) :
  header <$> drawingHistory (run initial tr) `sublist_of` header <$> appended tr.
Proof. apply (run_log_order initial tr). Qed.

(** ** Who receives what *)

Lemma broadcast_skips_sender connected sid :
  sid ∉ recipients connected (socket_broadcast_emit sid).
Proof. simpl. rewrite list_elem_of_filter. by intros [? _]. Qed.

Lemma broadcast_reaches_others connected sid c :
  c ∈ connected -> c <> sid -> c ∈ recipients connected (socket_broadcast_emit sid).
Proof. intros Hc Hne. simpl. by apply list_elem_of_filter. Qed.

(** ** Point-append *)

Section draw_move.
Variable operationId : string.
Implicit Types (op : DrawingOperation.t) (log l : list DrawingOperation.t).

(** [find] stops at the first Operation bearing the id. *)
Lemma find_first_match l1 op l2 :
  bears operationId op -> Forall (fun o => ~ bears operationId o) l1 ->
  list_find (bears operationId) (l1 ++ op :: l2) = Some (length l1, op).
Proof.
  intros Hop Hl1. apply list_find_Some. split_and!.
  - by apply list_lookup_middle.
  - done.
  - intros j o Hj Hlt. rewrite lookup_app_l in Hj by done.
    by eapply Forall_lookup_1 in Hl1.
Qed.

(** A log that holds the id splits at its first bearer. *)
Lemma first_match_split log :
  (exists op, op ∈ log /\ bears operationId op) ->
  exists l1 op l2,
    log = l1 ++ op :: l2 /\ bears operationId op
    /\ Forall (fun o => ~ bears operationId o) l1.
Proof.
  induction log as [|o log IH]; intros (op & Hin & Hop).
  - by apply elem_of_nil in Hin.
  - destruct (decide (bears operationId o)) as [Ho|Ho].
    + by exists [], o, log.
    + apply elem_of_cons in Hin as [->|Hin]; [done|].
      destruct IH as (l1 & op' & l2 & -> & ? & ?); [by exists op|].
      exists (o :: l1), op', l2. split_and!; [done..|by constructor].
Qed.

Lemma draw_move_first_match sid pts st l1 op l2 :
  drawingHistory st = l1 ++ op :: l2 ->
  bears operationId op -> Forall (fun o => ~ bears operationId o) l1 ->
  exec (on_draw_move sid operationId pts) st =
    (mkState (l1 ++ DrawingOperation.push_points pts op :: l2)
             (users st) (colorIndex st),
     [ mkEmit (socket_broadcast_emit sid) (draw_move operationId pts) ]).
Proof.
  intros Hlog Hop Hl1. rewrite exec_on_draw_move, Hlog.
  rewrite find_first_match by done.
  rewrite alter_app_r_alt by done. by rewrite Nat.sub_diag.
Qed.

Lemma draw_move_no_match sid pts st :
  Forall (fun o => ~ bears operationId o) (drawingHistory st) ->
  exec (on_draw_move sid operationId pts) st =
    (st, [ mkEmit (socket_broadcast_emit sid) (draw_move operationId pts) ]).
Proof.
  intros Hnone. rewrite exec_on_draw_move.
  by rewrite (proj2 (list_find_None _ _) Hnone).
Qed.

End draw_move.

(** C4 — A [draw-move] whose id some Operation of the log bears appends
    its points to that Operation: the first bearer has its points followed
    by the incoming ones and its other fields as they were, and the rest
    of the log is untouched.  When no Operation bears the id the state
    stays as it is.
    Either way the listener emits the raw payload with
    [socket.broadcast.emit] and nothing else, so nothing, and no error,
    goes back to the sender. *)
Theorem draw_move_appends_or_drops
    (st : State) (sid : string) (t : number)
    (operationId : string) (pts : list Point.t) :
  let move := mkInbound sid t (recv_draw_move operationId pts) in
  let bears := bears operationId in
  (exec (handle move) st).2 =
    [ mkEmit (socket_broadcast_emit sid) (draw_move operationId pts) ]
  /\ (forall connected,
        (sid ∉ recipients connected (socket_broadcast_emit sid))
        /\ forall c, c ∈ connected -> c <> sid ->
                     c ∈ recipients connected (socket_broadcast_emit sid))
  /\ ((exists op, op ∈ drawingHistory st /\ bears op) ->
      exists l1 op l2,
        drawingHistory st = l1 ++ op :: l2
        /\ bears op
        /\ Forall (fun o => ~ bears o) l1
        /\ (exec (handle move) st).1 =
             mkState
               (l1 ++ DrawingOperation.mk
                        (DrawingOperation.id op) (DrawingOperation.userId op)
                        (DrawingOperation.type op)
                        (DrawingOperation.points op ++ pts)
                        (DrawingOperation.color op)
                        (DrawingOperation.strokeWidth op)
                        (DrawingOperation.timestamp op) :: l2)
               (users st) (colorIndex st))
  /\ (Forall (fun o => ~ bears o) (drawingHistory st) ->
      (exec (handle move) st).1 = st).
Proof.
  intros move bears'. unfold move, bears', handle; cbn [received socket_id].
  split_and!.
  - by rewrite exec_on_draw_move.
  - intros connected. split.
    + apply broadcast_skips_sender.
    + intros c. apply broadcast_reaches_others.
  - intros Hex. apply first_match_split in Hex as (l1 & op & l2 & Hlog & Hop & Hl1).
    exists l1, op, l2. split_and!; [done..|].
    by rewrite (draw_move_first_match _ _ _ _ l1 op l2).
  - intros Hnone. by rewrite draw_move_no_match.
Qed.

Lemma draw_move_appends_or_drops_witness :
  let st := mkState [sample_op "a" "s1"; sample_op "b" "s2"] [] 0 in
  let pts := [Point.mk 3%float 4%float None] in
  (exists l1 op l2,
      drawingHistory st = l1 ++ op :: l2
      /\ bears "b" op
      /\ Forall (fun o => ~ bears "b" o) l1
      /\ (exec (handle (arrival "s2" (recv_draw_move "b" pts))) st).1 =
           mkState
             (l1 ++ DrawingOperation.mk
                      (DrawingOperation.id op) (DrawingOperation.userId op)
                      (DrawingOperation.type op)
                      (DrawingOperation.points op ++ pts)
                      (DrawingOperation.color op)
                      (DrawingOperation.strokeWidth op)
                      (DrawingOperation.timestamp op) :: l2)
             [] 0)
  /\ (exec (handle (arrival "s2" (recv_draw_move "zz" pts))) st).1 = st.
Proof.
  intros st pts. split.
  - destruct (draw_move_appends_or_drops st "s2" 1000%float "b" pts)
      as (_ & _ & Hfound & _).
    apply Hfound. exists (sample_op "b" "s2"). split.
    + apply list_elem_of_further, list_elem_of_here.
    + reflexivity.
  - destruct (draw_move_appends_or_drops st "s2" 1000%float "zz" pts)
      as (_ & _ & _ & Hdropped).
    apply Hdropped. repeat constructor; vm_compute; discriminate.
Defined.

(** ** Erase *)

(** C5, as the spec has it, fails: a first point whose radius is there and
    is [0] does not give a strokeWidth of [0]; [0 || 20] is [20]. *)
Lemma erase_zero_radius_counterexample :
  let pts := [ErasePoint.mk 1%float 2%float (Some 0%float)] in
  let st' := step initial (arrival "s1" (recv_erase "e1" pts)) in
  ~ (exists op, last (drawingHistory st') = Some op
                /\ DrawingOperation.strokeWidth op = 0%float).
Proof.
  intros pts st' (op & Hlast & Hwidth).
  vm_compute in Hlast. injection Hlast as <-.
  apply (f_equal PrimFloat.is_zero) in Hwidth. vm_compute in Hwidth.
  discriminate.
Qed.

(** C5, amended — Every [erase] appends to the log an Operation of kind
    erase, with the id of the payload, the sender as author and the fixed
    colour ["#FFFFFF"] (the payload carries no colour), and emits that
    Operation with [socket.broadcast.emit].  Its strokeWidth is the radius
    of the first point when the point list is non-empty and that radius is
    there and truthy (neither [0] nor [NaN]); it is [20] otherwise: on an
    empty point list, on a missing radius, on a falsy one. *)
Theorem erase_appends_sentinel_operation
    (st : State) (sid : string) (t : number)
    (operationId : string) (pts : list ErasePoint.t) :
  exists op,
    exec (handle (mkInbound sid t (recv_erase operationId pts))) st =
      (mkState (drawingHistory st ++ [op]) (users st) (colorIndex st),
       [ mkEmit (socket_broadcast_emit sid) (erase op) ])
    /\ DrawingOperation.type op = type_erase
    /\ DrawingOperation.color op = "#FFFFFF"
    /\ DrawingOperation.id op = operationId
    /\ DrawingOperation.userId op = sid
    /\ (forall p rest r,
          pts = p :: rest -> ErasePoint.radius p = Some r -> truthy r = true ->
          DrawingOperation.strokeWidth op = r)
    /\ (forall p rest r,
          pts = p :: rest -> ErasePoint.radius p = Some r -> truthy r = false ->
          DrawingOperation.strokeWidth op = 20%float)
    /\ (forall p rest,
          pts = p :: rest -> ErasePoint.radius p = None ->
          DrawingOperation.strokeWidth op = 20%float)
    /\ (pts = [] -> DrawingOperation.strokeWidth op = 20%float)
    /\ forall connected,
         (sid ∉ recipients connected (socket_broadcast_emit sid))
         /\ forall c, c ∈ connected -> c <> sid ->
                      c ∈ recipients connected (socket_broadcast_emit sid).
Proof.
  exists (erased sid t operationId pts).
  unfold handle; cbn [received socket_id now].
  rewrite exec_on_erase. split_and!; try done.
  - intros p rest r -> Hr Htruthy. simpl. by rewrite Hr; simpl; rewrite Htruthy.
  - intros p rest r -> Hr Hfalsy. simpl. by rewrite Hr; simpl; rewrite Hfalsy.
  - intros p rest -> Hr. simpl. by rewrite Hr.
  - by intros ->.
  - intros connected. split.
    + apply broadcast_skips_sender.
    + intros c. apply broadcast_reaches_others.
Qed.

Lemma erase_appends_sentinel_operation_witness :
  exists op,
    exec (handle (arrival "s1"
            (recv_erase "e1" [ErasePoint.mk 1%float 2%float (Some 8%float)])))
         initial =
      (mkState [op] [] 0, [ mkEmit (socket_broadcast_emit "s1") (erase op) ])
    /\ DrawingOperation.strokeWidth op = 8%float.
Proof.
  destruct (erase_appends_sentinel_operation initial "s1" 1000%float "e1"
              [ErasePoint.mk 1%float 2%float (Some 8%float)])
    as (op & Hexec & _ & _ & _ & _ & Hradius & _).
  exists op. split; [exact Hexec|].
  apply (Hradius (ErasePoint.mk 1%float 2%float (Some 8%float)) [] 8%float);
    reflexivity.
Defined.

(** ** Joining: colour and name *)

(** The palette index is always inside the palette. *)
Lemma palette_lookup (index : nat) :
  userColors !! (index mod length userColors) =
    Some (default "" (userColors !! (index mod length userColors))).
Proof.
  destruct (userColors !! (index mod length userColors)) eqn:Hlookup; [done|].
  apply lookup_ge_None in Hlookup.
  pose proof (Nat.mod_upper_bound index (length userColors)) as Hlt.
  simpl in *. lia.
Qed.

(** Only a connection moves [colorIndex], and it moves it up by one. *)
Lemma colorIndex_step st i :
  colorIndex (step st i) = colorIndex st + (if is_connection i then 1 else 0).
Proof.
  destruct i as [sid t e]. unfold step, handle, is_connection.
  destruct e; cbn [received socket_id now]; try (simpl; lia).
  - rewrite exec_on_draw_move. destruct (list_find _ _) as [[ref found]|]; simpl; lia.
  - rewrite exec_on_cursor_move. destruct (Map_get _ _); simpl; lia.
  - rewrite exec_on_undo. destruct (drawingHistory st); simpl; lia.
Qed.

Lemma connections_snoc tr i :
  connections (tr ++ [i]) = connections tr + (if is_connection i then 1 else 0).
Proof.
  unfold connections. rewrite filter_app, length_app. f_equal.
  rewrite filter_cons, filter_nil. by destruct (is_connection i).
Qed.

Lemma colorIndex_run st tr :
  colorIndex (run st tr) = colorIndex st + connections tr.
Proof.
  induction tr as [|i tr IH] using rev_ind.
  - unfold connections. simpl. lia.
  - rewrite run_snoc, colorIndex_step, IH, connections_snoc. lia.
Qed.

(** C6 — [colorIndex] counts the connections of the process: it starts at
    0, goes up by one at each connection and no listener ever lowers it.
    So the [n]-th connection is given [userColors[(n - 1) mod 8]], both in
    its [user-assigned] event and in its registry entry; with nine sockets
    connected at once the ninth has the colour of the first. *)
Theorem nth_connection_gets_palette_colour :
  (forall tr, colorIndex (run initial tr) = connections tr)
  /\ (forall st i, colorIndex st <= colorIndex (step st i))
  /\ (forall tr sid t,
        let n := S (connections tr) in
        let join := mkInbound sid t recv_connection in
        exists colour name u,
          userColors !! ((n - 1) mod 8) = Some colour
          /\ (exec (handle join) (run initial tr)).2 !! 0 =
               Some (mkEmit (socket_emit sid) (user_assigned sid colour name))
          /\ Map_get sid (users (step (run initial tr) join)) = Some u
          /\ User.color u = colour)
  /\ (let joins :=
        (fun sid => arrival sid recv_connection)
          <$> ["s1"; "s2"; "s3"; "s4"; "s5"; "s6"; "s7"; "s8"; "s9"] in
      let registry := users (run initial joins) in
      Map_size registry = 9
      /\ User.color <$> Map_get "s1" registry = Some "#FF6B6B"
      /\ User.color <$> Map_get "s9" registry = Some "#FF6B6B").
Proof.
  split_and!.
  - intros tr. by rewrite colorIndex_run.
  - intros st i. rewrite colorIndex_step. lia.
  - intros tr sid t n join. subst n join.
    unfold step, handle; cbn [received socket_id].
    rewrite exec_on_connection. cbn zeta. cbn [fst snd].
    rewrite colorIndex_run. cbn [colorIndex initial users].
    rewrite Map_get_set_eq.
    eexists _, _, _. split_and!; [|reflexivity|reflexivity|reflexivity].
    replace (S (connections tr) - 1) with (connections tr) by lia.
    apply (palette_lookup (connections tr)).
  - by vm_compute.
Qed.

(** C7 — A joining user is named ["User "] followed by the size of the
    registry at that moment plus one, in decimal.  The name is not drawn
    from a counter: after three joins and the departure of the first two,
    the second of two further joins is named like the user who stayed. *)
Theorem join_name_is_registry_size_plus_one :
  (forall st sid t,
      let join := mkInbound sid t recv_connection in
      let name := "User " +:+ pretty (Map_size (users st) + 1) in
      (exists u, Map_get sid (users (step st join)) = Some u
                 /\ User.name u = name)
      /\ exists colour,
           (exec (handle join) st).2 !! 0 =
             Some (mkEmit (socket_emit sid) (user_assigned sid colour name)))
  /\ (let tr :=
        [ arrival "s1" recv_connection; arrival "s2" recv_connection;
          arrival "s3" recv_connection;
          arrival "s1" recv_disconnect; arrival "s2" recv_disconnect;
          arrival "s4" recv_connection; arrival "s5" recv_connection ] in
      let registry := users (run initial tr) in
      "s3" <> "s5"
      /\ User.name <$> Map_get "s3" registry = Some "User 3"
      /\ User.name <$> Map_get "s5" registry = Some "User 3").
Proof.
  split.
  - intros st sid t join name. subst join name.
    unfold step, handle; cbn [received socket_id].
    rewrite exec_on_connection. cbn zeta. cbn [fst snd users].
    rewrite Map_get_set_eq. split; eexists; [split|]; reflexivity.
  - by vm_compute.
Qed.

(** ** Cursor updates *)

(** C8 — A [cursor-move] from a registered user overwrites the cursor of
    that user's registry entry and nothing else, and emits, with
    [socket.broadcast.emit] only, the new cursor together with the user's
    id, name and colour: every other connected socket receives it, the
    sender never does. *)
Theorem cursor_move_updates_and_skips_sender
    (st : State) (sid : string) (t : number) (cursor : Cursor.t) (u : User.t) :
  Map_get sid (users st) = Some u ->
  let move := mkInbound sid t (recv_cursor_move cursor) in
  let st' := step st move in
  (exec (handle move) st).2 =
    [ mkEmit (socket_broadcast_emit sid)
        (user_cursor sid cursor (User.id u) (User.name u) (User.color u)) ]
  /\ Map_get sid (users st') =
       Some (User.mk (User.id u) (User.name u) (User.color u) (Some cursor))
  /\ (forall other, other <> sid ->
        Map_get other (users st') = Map_get other (users st))
  /\ drawingHistory st' = drawingHistory st
  /\ colorIndex st' = colorIndex st
  /\ forall connected,
       (sid ∉ recipients connected (socket_broadcast_emit sid))
       /\ forall c, c ∈ connected -> c <> sid ->
                    c ∈ recipients connected (socket_broadcast_emit sid).
Proof.
  intros Hu move st'. subst move st'.
  unfold step, handle; cbn [received socket_id].
  rewrite exec_on_cursor_move, Hu. cbn [fst snd users drawingHistory colorIndex].
  split_and!; try done.
  - apply Map_get_set_eq.
  - intros other Hother. by apply Map_get_set_ne.
  - intros connected. split.
    + apply broadcast_skips_sender.
    + intros c. apply broadcast_reaches_others.
Qed.

Lemma cursor_move_updates_and_skips_sender_witness :
  let st := run initial [arrival "s1" recv_connection; arrival "s2" recv_connection] in
  let cursor := Cursor.mk 10%float 20%float in
  (exec (handle (arrival "s2" (recv_cursor_move cursor))) st).2 =
    [ mkEmit (socket_broadcast_emit "s2")
        (user_cursor "s2" cursor "s2" "User 2" "#4ECDC4") ].
Proof.
  intros st cursor.
  apply (cursor_move_updates_and_skips_sender st "s2" 1000%float cursor
           (User.mk "s2" "User 2" "#4ECDC4" None)).
  reflexivity.
Defined.

(** ** Disconnect *)

(** An undo leaves all of the log but its last Operation. *)
Lemma undo_history st sid t :
  drawingHistory (step st (mkInbound sid t recv_undo)) =
    take (length (drawingHistory st) - 1) (drawingHistory st).
Proof.
  unfold step, handle; cbn [received]. rewrite exec_on_undo.
  destruct (drawingHistory st) as [|op log] eqn:Hlog; cbn [fst drawingHistory].
  - by rewrite Hlog.
  - rewrite removelast_firstn_len. f_equal. simpl. lia.
Qed.

(** So do [n] undos with the last [n]. *)
Lemma undos_history n st sid t :
  drawingHistory (run st (replicate n (mkInbound sid t recv_undo))) =
    take (length (drawingHistory st) - n) (drawingHistory st).
Proof.
  revert st. induction n as [|n IH]; intros st.
  - simpl. rewrite Nat.sub_0_r. by rewrite take_ge.
  - rewrite replicate_S, run_cons, IH, undo_history.
    rewrite length_take, take_take. f_equal. lia.
Qed.

(** C9 — A disconnect deletes the departing user, and only that user, from
    the registry, and emits [user-left] with [socket.broadcast.emit], to
    every socket that remains.  The log and [colorIndex] stay as they are:
    every Operation of the log, those of the departed user and an
    unfinished stroke among them, is still there, and undo still removes
    it (as many undos as there are Operations from it to the tail). *)
Theorem disconnect_leaves_log_untouched
    (st : State) (sid : string) (t : number) :
  let leave := mkInbound sid t recv_disconnect in
  let st' := step st leave in
  Map_get sid (users st') = None
  /\ (forall other, other <> sid ->
        Map_get other (users st') = Map_get other (users st))
  /\ (exec (handle leave) st).2 =
       [ mkEmit (socket_broadcast_emit sid) (user_left sid) ]
  /\ (forall connected c, c ∈ connected -> c <> sid ->
        c ∈ recipients connected (socket_broadcast_emit sid))
  /\ drawingHistory st' = drawingHistory st
  /\ colorIndex st' = colorIndex st
  /\ forall l1 op l2 sid' t',
       drawingHistory st = l1 ++ op :: l2 ->
       op ∈ drawingHistory st'
       /\ drawingHistory
            (run st' (replicate (S (length l2)) (mkInbound sid' t' recv_undo)))
          = l1.
Proof.
  intros leave st'. subst leave st'.
  unfold step, handle; cbn [received socket_id].
  rewrite exec_on_disconnect. cbn [fst snd users drawingHistory colorIndex].
  split_and!; try done.
  - apply Map_get_delete_eq.
  - intros other Hother. by apply Map_get_delete_ne.
  - intros connected c. apply broadcast_reaches_others.
  - intros l1 op l2 sid' t' Hlog. split.
    + rewrite Hlog. apply elem_of_app. right. apply list_elem_of_here.
    + rewrite undos_history. cbn [drawingHistory]. rewrite Hlog.
      apply take_app_length'. rewrite length_app. simpl. lia.
Qed.

Lemma disconnect_leaves_log_untouched_witness :
  let open_stroke := sample_op "a" "s1" in
  let st := mkState [open_stroke; sample_op "b" "s2"]
                    [("s1", User.mk "s1" "User 1" "#FF6B6B" None);
                     ("s2", User.mk "s2" "User 2" "#4ECDC4" None)] 2 in
  let st' := step st (arrival "s1" recv_disconnect) in
  open_stroke ∈ drawingHistory st'
  /\ drawingHistory (run st' (replicate 2 (arrival "s2" recv_undo))) = [].
Proof.
  intros open_stroke st st'.
  destruct (disconnect_leaves_log_untouched st "s1" 1000%float)
    as (_ & _ & _ & _ & _ & _ & Hundo).
  apply (Hundo [] open_stroke [sample_op "b" "s2"] "s2" 1000%float).
  reflexivity.
Defined.

(** ** Colliding ids *)

(** C10 — [draw-start] appends its Operation whatever ids the log already
    holds, so the same id can stand in the log twice.  A [draw-move] for an
    id appends its points to the first Operation of the log that bears it:
    that Operation has its points followed by the incoming ones and its
    other fields as they were.  Everything after that Operation, other
    bearers of the id included, stays as it is. *)
Theorem draw_move_hits_first_of_colliding_ids :
  (forall st sid t data,
      drawingHistory (step st (mkInbound sid t (recv_draw_start data))) =
        drawingHistory st ++ [started t data])
  /\ (exists tr o1 o2,
        drawingHistory (run initial tr) = [o1; o2]
        /\ DrawingOperation.id o1 = DrawingOperation.id o2)
  /\ forall st sid t operationId pts l1 op l2,
       drawingHistory st = l1 ++ op :: l2 ->
       bears operationId op ->
       Forall (fun o => ~ bears operationId o) l1 ->
       drawingHistory (step st (mkInbound sid t (recv_draw_move operationId pts))) =
         l1 ++ DrawingOperation.mk
                 (DrawingOperation.id op) (DrawingOperation.userId op)
                 (DrawingOperation.type op)
                 (DrawingOperation.points op ++ pts)
                 (DrawingOperation.color op)
                 (DrawingOperation.strokeWidth op)
                 (DrawingOperation.timestamp op) :: l2.
Proof.
  split_and!.
  - done.
  - exists [ arrival "s1" (recv_draw_start (stroke "a" "s1"));
             arrival "s2" (recv_draw_start (stroke "a" "s2")) ].
    by eexists _, _.
  - intros st sid t operationId pts l1 op l2 Hlog Hop Hl1.
    unfold step, handle; cbn [received socket_id].
    by rewrite (draw_move_first_match _ _ _ _ l1 op l2).
Qed.

Lemma draw_move_hits_first_of_colliding_ids_witness :
  let first := sample_op "a" "s1" in
  let second := sample_op "a" "s2" in
  let pts := [Point.mk 3%float 4%float None] in
  drawingHistory
    (step (mkState [sample_op "b" "s3"; first; second] [] 0)
          (arrival "s2" (recv_draw_move "a" pts))) =
    [ sample_op "b" "s3";
      DrawingOperation.mk "a" "s1" type_draw
        [Point.mk 1%float 2%float None; Point.mk 3%float 4%float None]
        "#000000" 5%float 1000%float;
      second ].
Proof.
  intros first second pts.
  destruct draw_move_hits_first_of_colliding_ids as (_ & _ & Hfirst).
  apply (Hfirst _ "s2" 1000%float "a" pts [sample_op "b" "s3"] first [second]).
  - reflexivity.
  - reflexivity.
  - repeat constructor. vm_compute. discriminate.
Defined.

(** * Further properties of the server *)

(** ** The registry *)

Section JSMap_more.
Context {V : Type}.
Implicit Types (m : JSMap V) (k : string) (v : V).

Lemma Map_get_Some_elem k v m : Map_get k m = Some v -> (k, v) ∈ m.
Proof.
  induction m as [|[k' v'] m IH]; simpl; [done|].
  destruct (decide (k' = k)) as [->|Hne].
  - intros [= ->]. apply list_elem_of_here.
  - intros Hget. by apply list_elem_of_further, IH.
Qed.

Lemma Map_get_None_keys k m : Map_get k m = None <-> k ∉ Map_keys m.
Proof.
  unfold Map_keys. induction m as [|[k' v'] m IH]; simpl.
  - split; [intros _; apply not_elem_of_nil|done].
  - rewrite not_elem_of_cons. destruct (decide (k' = k)) as [->|Hne].
    + split; [done|]. by intros [? _].
    + rewrite IH. split; [by split|by intros [_ ?]].
Qed.

(** [set] on a key that is not there appends the entry. *)
Lemma Map_set_fresh k v m : Map_get k m = None -> Map_set k v m = m ++ [(k, v)].
Proof.
  induction m as [|[k' v'] m IH]; simpl; [done|].
  destruct (decide (k' = k)); [done|]. intros Hget. by rewrite IH.
Qed.

(** [set] on a key that is there keeps the keys as they stand. *)
Lemma Map_set_keys_present k v m :
  is_Some (Map_get k m) -> Map_keys (Map_set k v m) = Map_keys m.
Proof.
  unfold Map_keys. induction m as [|[k' v'] m IH]; simpl.
  - by intros [? ?].
  - destruct (decide (k' = k)) as [->|Hne]; [done|].
    intros Hget. rewrite !fmap_cons. f_equal. by apply IH.
Qed.

Lemma Map_set_keys k v m :
  Map_keys (Map_set k v m) =
    if decide (k ∈ Map_keys m) then Map_keys m else Map_keys m ++ [k].
Proof.
  destruct (Map_get k m) as [v'|] eqn:Hget.
  - rewrite Map_set_keys_present by eauto.
    rewrite decide_True; [done|].
    destruct (decide (k ∈ Map_keys m)) as [|Hnot]; [done|].
    apply Map_get_None_keys in Hnot. congruence.
  - rewrite Map_set_fresh by done.
    rewrite decide_False by by apply Map_get_None_keys.
    unfold Map_keys. by rewrite fmap_app.
Qed.

Lemma Map_set_Forall (P : string * V -> Prop) k v m :
  Forall P m -> P (k, v) -> Forall P (Map_set k v m).
Proof.
  intros Hm Hkv. induction Hm as [|[k' v'] m Hx Hm IH]; simpl.
  - by repeat constructor.
  - destruct (decide (k' = k)); by constructor.
Qed.

Lemma Map_delete_keys k m :
  Map_keys (Map_delete k m) = filter (fun k' => k' <> k) (Map_keys m).
Proof.
  unfold Map_keys, Map_delete. induction m as [|[k' v'] m IH]; [done|].
  rewrite fmap_cons, !filter_cons. cbn [fst].
  destruct (decide (k' <> k)); [rewrite fmap_cons; f_equal|]; apply IH.
Qed.

Lemma Map_delete_absent k m : Map_get k m = None -> Map_delete k m = m.
Proof.
  unfold Map_delete. induction m as [|[k' v'] m IH]; simpl; [done|].
  destruct (decide (k' = k)) as [->|Hne]; [done|].
  intros Hget. rewrite filter_cons_True by done. by rewrite IH.
Qed.

Lemma Map_set_NoDup k v m : NoDup (Map_keys m) -> NoDup (Map_keys (Map_set k v m)).
Proof.
  intros Hm. rewrite Map_set_keys. case_decide; [done|].
  apply NoDup_app. split_and!; [done| |apply NoDup_singleton].
  intros k' Hk' ->%list_elem_of_singleton. done.
Qed.

Lemma Map_delete_NoDup k m : NoDup (Map_keys m) -> NoDup (Map_keys (Map_delete k m)).
Proof. intros Hm. rewrite Map_delete_keys. by apply NoDup_filter. Qed.

End JSMap_more.

Lemma registry_ok_step st i : registry_ok (users st) -> registry_ok (users (step st i)).
Proof.
  intros [Hkeys Hids]. destruct i as [sid t e]. unfold step, handle.
  destruct e; cbn [received socket_id now]; try (by split).
  - rewrite exec_on_connection. simpl. split.
    + by apply Map_set_NoDup.
    + apply Map_set_Forall; [done|]. simpl. split; [done|].
      apply list_elem_of_lookup. eexists. apply palette_lookup.
  - rewrite exec_on_draw_move. by destruct (list_find _ _) as [[ref found]|].
  - rewrite exec_on_cursor_move.
    destruct (Map_get sid (users st)) as [u|] eqn:Hu; [|by split]. simpl. split.
    + by apply Map_set_NoDup.
    + apply Map_set_Forall; [done|]. simpl.
      apply Map_get_Some_elem in Hu.
      by apply (proj1 (Forall_forall _ _) Hids) in Hu.
  - rewrite exec_on_undo. by destruct (drawingHistory st).
  - rewrite exec_on_disconnect. simpl. split.
    + by apply Map_delete_NoDup.
    + apply Forall_forall. intros e [_ He]%list_elem_of_filter.
      by apply (proj1 (Forall_forall _ _) Hids).
Qed.

Lemma registry_ok_run st tr :
  registry_ok (users st) -> registry_ok (users (run st tr)).
Proof.
  intros Hok. induction tr as [|i tr IH] using rev_ind; [done|].
  rewrite run_snoc. by apply registry_ok_step.
Qed.

Lemma registry_is_well_formed_run tr : registry_ok (users (run initial tr)).
Proof. apply registry_ok_run. split; [apply NoDup_nil_2|constructor]. Qed.

(** X1 — At every state the server reaches, no socket id is registered
    twice, every user is filed under the id it carries, and every user's
    colour is one of the palette. *)
Theorem registry_is_well_formed (tr : list Inbound) :
  NoDup (Map_keys (users (run initial tr)))
  /\ forall sid u,
       Map_get sid (users (run initial tr)) = Some u ->
       User.id u = sid /\ User.color u ∈ userColors.
Proof.
  destruct (registry_is_well_formed_run tr) as [Hkeys Hids]. split; [done|].
  intros sid u Hu%Map_get_Some_elem.
  by apply (proj1 (Forall_forall _ _) Hids) in Hu.
Qed.

(** X2 — A socket that is not yet registered and connects is told its
    identity, then sent the snapshot: the registered users in the order
    they joined with itself last, and the log as it stands.  The others
    are sent its record, whose cursor is still unset.  The registry grows
    by exactly that record; the log is not touched. *)
Theorem newcomer_gets_snapshot_with_itself_last
    (st : State) (sid : string) (t : number) :
  Map_get sid (users st) = None ->
  let join := mkInbound sid t recv_connection in
  exists me,
    emitted st join =
      [ mkEmit (socket_emit sid)
          (user_assigned sid (User.color me) (User.name me));
        mkEmit (socket_emit sid)
          (initial_state (Map_values (users st) ++ [me]) (drawingHistory st));
        mkEmit (socket_broadcast_emit sid) (user_joined me) ]
    /\ User.id me = sid
    /\ User.cursor me = None
    /\ users (step st join) = users st ++ [(sid, me)]
    /\ Map_size (users (step st join)) = S (Map_size (users st))
    /\ drawingHistory (step st join) = drawingHistory st.
Proof.
  intros Hfresh join. subst join. unfold emitted, step, handle.
  cbn [received socket_id]. rewrite exec_on_connection. cbn zeta.
  cbn [fst snd users drawingHistory].
  rewrite (Map_set_fresh sid _ (users st) Hfresh).
  eexists (User.mk sid _ _ None). split_and!; try reflexivity.
  - unfold Map_values. rewrite fmap_app. reflexivity.
  - unfold Map_size. rewrite length_app. simpl. lia.
Qed.

Lemma newcomer_gets_snapshot_with_itself_last_witness :
  let st := run initial [arrival "s1" recv_connection] in
  exists me,
    emitted st (arrival "s2" recv_connection) !! 1 =
      Some (mkEmit (socket_emit "s2")
              (initial_state [User.mk "s1" "User 1" "#FF6B6B" None; me] []))
    /\ User.id me = "s2".
Proof.
  intros st.
  destruct (newcomer_gets_snapshot_with_itself_last st "s2" 1000%float)
    as (me & Hout & Hid & _); [reflexivity|].
  exists me. split; [|exact Hid]. unfold arrival. rewrite Hout. reflexivity.
Defined.

(** X3 — [get-user] answers the asking socket alone and changes nothing.
    Asked about a socket that has just connected it answers that socket's
    record; asked about a socket that has just disconnected it answers
    [null]. *)
Theorem get_user_answers_only_the_asker
    (st : State) (asker userId : string) (t t' : number) :
  let ask := mkInbound asker t (recv_get_user userId) in
  let join := mkInbound userId t' recv_connection in
  let leave := mkInbound userId t' recv_disconnect in
  step st ask = st
  /\ emitted st ask =
       [ mkEmit (socket_emit asker)
           (get_user_callback (Map_get userId (users st))) ]
  /\ (forall c, c <> asker -> inbox c (emitted st ask) = [])
  /\ (exists u,
        emitted (step st join) ask =
          [ mkEmit (socket_emit asker) (get_user_callback (Some u)) ]
        /\ User.id u = userId /\ User.cursor u = None)
  /\ emitted (step st leave) ask =
       [ mkEmit (socket_emit asker) (get_user_callback None) ].
Proof.
  intros ask join leave. subst ask join leave. unfold emitted, step, handle.
  cbn [received socket_id]. split_and!.
  - by destruct st.
  - done.
  - intros c Hc. unfold inbox. simpl. rewrite filter_cons_False; [done|].
    simpl. by intros ?%bool_decide_unpack.
  - rewrite exec_on_connection. cbn zeta. cbn [fst].
    unfold on_get_user, users_get, exec, mbind, Handler_bind, emit.
    cbn [users snd app]. rewrite Map_get_set_eq. by eexists.
  - rewrite exec_on_disconnect. cbn [fst].
    unfold on_get_user, users_get, exec, mbind, Handler_bind, emit.
    cbn [users snd app]. by rewrite Map_get_delete_eq.
Qed.

(** ** Which listener writes what *)

(** X4 — Only [draw-start], [draw-move], [undo], [redo] and [erase] can
    change the log; only [connection], [cursor-move] and [disconnect] can
    change the registry; only [connection] moves [colorIndex]. *)
Theorem listeners_write_only_their_own_state (st : State) (i : Inbound) :
  (writes_log (received i) = false ->
     drawingHistory (step st i) = drawingHistory st)
  /\ (writes_registry (received i) = false -> users (step st i) = users st)
  /\ (is_connection i = false -> colorIndex (step st i) = colorIndex st).
Proof.
  split_and!.
  - destruct i as [sid t e]. unfold step, handle.
    destruct e; cbn [received socket_id now writes_log]; try done.
    intros _. rewrite exec_on_cursor_move. by destruct (Map_get _ _).
  - destruct i as [sid t e]. unfold step, handle.
    destruct e; cbn [received socket_id now writes_registry]; try done; intros _.
    + rewrite exec_on_draw_move. by destruct (list_find _ _) as [[ref found]|].
    + rewrite exec_on_undo. by destruct (drawingHistory st).
  - intros Hno. rewrite colorIndex_step, Hno. lia.
Qed.

Lemma listeners_write_only_their_own_state_witness :
  let st := run initial [ arrival "s1" recv_connection;
                          arrival "s1" (recv_draw_start (stroke "a" "s1")) ] in
  drawingHistory (step st (arrival "s1" recv_disconnect)) = drawingHistory st
  /\ users (step st (arrival "s1" recv_undo)) = users st
  /\ colorIndex (step st (arrival "s1" recv_disconnect)) = colorIndex st.
Proof.
  intros st. split_and!.
  - by apply (proj1 (listeners_write_only_their_own_state st
                       (arrival "s1" recv_disconnect))).
  - by apply (proj1 (proj2 (listeners_write_only_their_own_state st
                              (arrival "s1" recv_undo)))).
  - by apply (proj2 (proj2 (listeners_write_only_their_own_state st
                              (arrival "s1" recv_disconnect)))).
Defined.

(** ** The length of the log *)

Lemma removelast_length {A} (l : list A) : length (removelast l) = length l - 1.
Proof. rewrite removelast_firstn_len, length_take. lia. Qed.

(** An appending event puts its Operation at the tail and leaves the rest
    of the state alone. *)
Lemma step_appends st i op :
  appended_by i = [op] ->
  step st i = mkState (drawingHistory st ++ [op]) (users st) (colorIndex st).
Proof.
  destruct i as [sid t e]. unfold step, handle, appended_by, created_by.
  destruct e; cbn [received socket_id now]; intros [= <-]; reflexivity.
Qed.

Lemma log_length_step st i :
  length (drawingHistory (step st i)) =
    length (drawingHistory st) + length (appended_by i)
      - (if is_undo i then 1 else 0).
Proof.
  destruct i as [sid t e].
  unfold step, handle, appended_by, created_by, is_undo.
  destruct e; cbn [received socket_id now]; try (simpl; lia).
  - rewrite exec_on_draw_start. simpl. rewrite length_app. simpl. lia.
  - rewrite exec_on_draw_move.
    destruct (list_find _ _) as [[ref found]|]; simpl; rewrite ?length_alter; lia.
  - rewrite exec_on_cursor_move. destruct (Map_get _ _); simpl; lia.
  - rewrite exec_on_undo. destruct (drawingHistory st) as [|op log] eqn:Hlog.
    + simpl. rewrite Hlog. simpl. lia.
    + cbn [fst drawingHistory]. rewrite removelast_length. simpl. lia.
  - rewrite exec_on_redo. simpl. rewrite length_app. simpl. lia.
  - rewrite exec_on_erase. simpl. rewrite length_app. simpl. lia.
Qed.

(** X5 — Each [draw-start], [erase] and [redo] makes the log one longer,
    each [undo] on a non-empty log one shorter, and nothing else changes
    its length.  So the log never holds more Operations than were appended
    since the process started, and never fewer than those less the undos. *)
Theorem log_length_accounting :
  (forall st i,
      length (drawingHistory (step st i)) =
        length (drawingHistory st) + length (appended_by i)
          - (if is_undo i then 1 else 0))
  /\ forall tr,
       length (appended tr) - undos tr
         <= length (drawingHistory (run initial tr))
         <= length (appended tr).
Proof.
  split; [apply log_length_step|].
  induction tr as [|i tr IH] using rev_ind; [simpl; lia|].
  rewrite run_snoc, log_length_step. unfold appended, undos in *.
  rewrite bind_app, bind_singleton, filter_app, !length_app.
  rewrite filter_cons, filter_nil.
  assert (is_undo i = true -> appended_by i = []) as Hundo.
  { unfold is_undo, appended_by, created_by. by destruct (received i). }
  destruct (is_undo i); simpl.
  - rewrite Hundo by done. simpl. lia.
  - lia.
Qed.

(** X6 — An [undo] that comes right after a [draw-start], an [erase] or a
    [redo] takes back exactly what that event appended: the server is in
    the state it was in before the two, and tells every socket the id of
    the Operation just appended. *)
Theorem undo_cancels_the_last_append
    (st : State) (i : Inbound) (sid : string) (t : number)
    (op : DrawingOperation.t) :
  appended_by i = [op] ->
  let undo := mkInbound sid t recv_undo in
  step (step st i) undo = st
  /\ emitted (step st i) undo =
       [ mkEmit io_emit (operation_removed (Some (DrawingOperation.id op))) ].
Proof.
  intros Happ undo. subst undo. rewrite (step_appends st i op Happ).
  unfold emitted, step, handle; cbn [received]. rewrite exec_on_undo.
  cbn [drawingHistory users colorIndex].
  destruct (drawingHistory st ++ [op]) as [|o l] eqn:Hlog.
  { by destruct (drawingHistory st). }
  rewrite <- Hlog, removelast_last, last_snoc. by destruct st.
Qed.

Lemma undo_cancels_the_last_append_witness :
  let st := mkState [sample_op "a" "s1"] [] 0 in
  step (step st (arrival "s2" (recv_erase "e" []))) (arrival "s1" recv_undo) = st.
Proof.
  intros st.
  apply (undo_cancels_the_last_append st (arrival "s2" (recv_erase "e" []))
           "s1" 1000%float (erased "s2" 1000%float "e" [])).
  reflexivity.
Defined.

(** X7 — [n] undos in a row drop the last [n] Operations of the log and
    leave the others in place; once the log is empty a further undo emits
    nothing. *)
Theorem repeated_undo_truncates_the_log
    (n : nat) (st : State) (sid : string) (t : number) :
  let undo := mkInbound sid t recv_undo in
  let st' := run st (replicate n undo) in
  drawingHistory st' =
    take (length (drawingHistory st) - n) (drawingHistory st)
  /\ (length (drawingHistory st) <= n ->
      drawingHistory st' = [] /\ emitted st' undo = [] /\ step st' undo = st').
Proof.
  intros undo st'. subst undo st'. split; [apply undos_history|].
  intros Hlen. rewrite <- (Nat.sub_0_le _ _) in Hlen.
  pose proof (undos_history n st sid t) as Hlog. rewrite Hlen in Hlog.
  unfold emitted, step, handle; cbn [received]. rewrite exec_on_undo.
  by rewrite Hlog.
Qed.

Lemma repeated_undo_truncates_the_log_witness :
  let st := mkState [sample_op "a" "s1"; sample_op "b" "s2"] [] 0 in
  drawingHistory (run st (replicate 3 (arrival "s1" recv_undo))) = [].
Proof.
  intros st.
  apply (proj2 (repeated_undo_truncates_the_log 3 st "s1" 1000%float)).
  simpl. lia.
Defined.

(** ** Point-append, again *)

Lemma grown_refl op : grown op op.
Proof. by split. Qed.

Lemma grown_push_points pts op : grown op (DrawingOperation.push_points pts op).
Proof. split; [done|]. by apply prefix_app_r. Qed.

(** X8 — A [draw-move] adds no Operation to the log, removes none and
    moves none: each Operation stays in its place with the same id, author,
    kind, colour, width and timestamp, and with the points it had as the
    first of the points it has.  The registry and [colorIndex] stay as they
    are. *)
Theorem draw_move_only_grows_points
    (st : State) (sid : string) (t : number)
    (operationId : string) (pts : list Point.t) :
  let st' := step st (mkInbound sid t (recv_draw_move operationId pts)) in
  Forall2 grown (drawingHistory st) (drawingHistory st')
  /\ length (drawingHistory st') = length (drawingHistory st)
  /\ header <$> drawingHistory st' = header <$> drawingHistory st
  /\ users st' = users st
  /\ colorIndex st' = colorIndex st.
Proof.
  intros st'. subst st'. unfold step, handle; cbn [received socket_id].
  rewrite exec_on_draw_move.
  assert (Forall2 grown (drawingHistory st) (drawingHistory st)) as Hsame.
  { apply Forall_Forall2_diag, Forall_forall. intros op _. apply grown_refl. }
  destruct (list_find _ _) as [[ref found]|]; cbn [fst drawingHistory users colorIndex].
  - split_and!; try done.
    + apply Forall2_alter_r; [done|]. intros old new _ _ [Hhead Hpre]. split.
      * by rewrite header_push_points.
      * by apply prefix_app_r.
    + apply length_alter.
    + apply header_alter_push_points.
  - by split_and!.
Qed.

(** [find] sees an Operation whose points have grown where it saw it
    before. *)
Lemma find_after_push_points operationId pts (log : list DrawingOperation.t) ref op :
  list_find (bears operationId) log = Some (ref, op) ->
  list_find (bears operationId)
            (alter (DrawingOperation.push_points pts) ref log) =
    Some (ref, DrawingOperation.push_points pts op).
Proof.
  intros (Hlookup & Hop & Hfirst)%list_find_Some. apply list_find_Some.
  split_and!.
  - by rewrite list_lookup_alter_eq, Hlookup.
  - done.
  - intros j o Hj Hlt. rewrite list_lookup_alter_ne in Hj by lia.
    by apply (Hfirst j).
Qed.

(** X9 — Two [draw-move]s for one id, one after the other, leave the log
    as a single [draw-move] carrying the points of the first followed by
    the points of the second would: cutting a stroke into batches does not
    change what the server stores. *)
Theorem draw_move_batches_compose
    (st : State) (sid sid' : string) (t t' : number)
    (operationId : string) (pts1 pts2 : list Point.t) :
  run st [ mkInbound sid t (recv_draw_move operationId pts1);
           mkInbound sid' t' (recv_draw_move operationId pts2) ] =
    step st (mkInbound sid t (recv_draw_move operationId (pts1 ++ pts2))).
Proof.
  rewrite !run_cons. unfold run, foldl, step, handle; cbn [received socket_id].
  rewrite !exec_on_draw_move. cbn [fst].
  destruct (list_find _ (drawingHistory st)) as [[ref op]|] eqn:Hfind.
  - cbn [drawingHistory users colorIndex].
    rewrite (find_after_push_points _ _ _ _ _ Hfind).
    rewrite list_alter_alter_eq. f_equal.
    apply list_alter_ext; [|done]. intros o _. unfold compose.
    destruct o. unfold DrawingOperation.push_points. simpl.
    by rewrite (assoc_L (++)).
  - by rewrite Hfind.
Qed.

(** ** Edge cases of the registry listeners *)

(** X10 — A [cursor-move] from a socket that has no entry in the registry
    is ignored: nothing changes and nothing is emitted.  This is what
    happens to a [cursor-move] handled after the socket's [disconnect]. *)
Theorem cursor_move_without_entry_is_ignored
    (st : State) (sid : string) (t t' : number) (cursor : Cursor.t) :
  let move := mkInbound sid t (recv_cursor_move cursor) in
  let leave := mkInbound sid t' recv_disconnect in
  (Map_get sid (users st) = None -> step st move = st /\ emitted st move = [])
  /\ step (step st leave) move = step st leave
  /\ emitted (step st leave) move = [].
Proof.
  intros move leave. subst move leave.
  assert (forall st0, Map_get sid (users st0) = None ->
            exec (on_cursor_move sid cursor) st0 = (st0, [])) as Hignored.
  { intros st0 Hnone. by rewrite exec_on_cursor_move, Hnone. }
  unfold emitted, step, handle; cbn [received socket_id]. split.
  - intros Hnone. by rewrite Hignored.
  - rewrite exec_on_disconnect. cbn [fst].
    rewrite Hignored; [done|]. apply Map_get_delete_eq.
Qed.

Lemma cursor_move_without_entry_is_ignored_witness :
  emitted initial (arrival "s1" (recv_cursor_move (Cursor.mk 1%float 2%float))) = [].
Proof.
  apply (proj1 (cursor_move_without_entry_is_ignored initial "s1"
                  1000%float 1000%float (Cursor.mk 1%float 2%float))).
  reflexivity.
Defined.

(** X11 — A [disconnect] always emits [user-left], also for a socket that
    has no entry; in that case the state stays as it is, so a second
    [disconnect] of the same socket changes nothing more. *)
Theorem disconnect_twice_is_disconnect_once
    (st : State) (sid : string) (t t' : number) :
  let leave := mkInbound sid t recv_disconnect in
  let again := mkInbound sid t' recv_disconnect in
  (Map_get sid (users st) = None -> step st leave = st)
  /\ step (step st leave) again = step st leave
  /\ emitted (step st leave) again =
       [ mkEmit (socket_broadcast_emit sid) (user_left sid) ].
Proof.
  intros leave again. subst leave again.
  unfold emitted, step, handle; cbn [received socket_id].
  rewrite !exec_on_disconnect. cbn [fst snd users drawingHistory colorIndex].
  split_and!.
  - intros Hnone. rewrite Map_delete_absent by done. by destruct st.
  - by rewrite (Map_delete_absent sid (Map_delete sid _)) by apply Map_get_delete_eq.
  - done.
Qed.

Lemma disconnect_twice_is_disconnect_once_witness :
  step initial (arrival "s1" recv_disconnect) = initial.
Proof.
  apply (proj1 (disconnect_twice_is_disconnect_once initial "s1"
                  1000%float 1000%float)).
  reflexivity.
Defined.

(** X12 — From its connection on, a registered user keeps its id, name and
    colour whatever events are handled, until its own socket disconnects
    or connects again. *)
Theorem user_keeps_id_name_and_colour
    (st : State) (i : Inbound) (sid : string) (u : User.t) :
  Map_get sid (users st) = Some u ->
  socket_id i <> sid \/ (is_connection i = false /\ is_disconnect i = false) ->
  exists u', Map_get sid (users (step st i)) = Some u' /\ public u' = public u.
Proof.
  intros Hu Hother. destruct i as [from t e].
  unfold step, handle, is_connection, is_disconnect in *.
  cbn [received socket_id now] in *.
  destruct e; try (by exists u).
  - destruct Hother as [Hne|[? _]]; [|done].
    rewrite exec_on_connection. simpl. rewrite Map_get_set_ne by done. by exists u.
  - rewrite exec_on_draw_move.
    destruct (list_find _ _) as [[ref found]|]; by exists u.
  - rewrite exec_on_cursor_move.
    destruct (Map_get from (users st)) as [sender|] eqn:Hsender; [|by exists u].
    simpl. destruct (decide (from = sid)) as [->|Hne].
    + rewrite Map_get_set_eq. eexists. split; [done|]. by simplify_eq.
    + rewrite Map_get_set_ne by done. by exists u.
  - rewrite exec_on_undo. destruct (drawingHistory st); by exists u.
  - destruct Hother as [Hne|[_ ?]]; [|done].
    rewrite exec_on_disconnect. simpl. rewrite Map_get_delete_ne by done. by exists u.
Qed.

Lemma user_keeps_id_name_and_colour_witness :
  let st := run initial [arrival "s1" recv_connection; arrival "s2" recv_connection] in
  exists u',
    Map_get "s1" (users (step st (arrival "s1" (recv_cursor_move (Cursor.mk 1%float 2%float)))))
      = Some u'
    /\ public u' = ("s1", "User 1", "#FF6B6B").
Proof.
  intros st.
  apply (user_keeps_id_name_and_colour st
           (arrival "s1" (recv_cursor_move (Cursor.mk 1%float 2%float)))
           "s1" (User.mk "s1" "User 1" "#FF6B6B" None)).
  - reflexivity.
  - right. split; reflexivity.
Defined.

(** ** The palette *)

Lemma userColors_NoDup : NoDup userColors.
Proof. by apply (bool_decide_unpack _). Qed.

Lemma colour_on_joining_eq tr sid t :
  colour_on_joining (run initial tr) sid t = userColors !! (connections tr mod 8).
Proof.
  unfold colour_on_joining, step, handle; cbn [received socket_id].
  rewrite exec_on_connection. cbn zeta. cbn [fst users].
  rewrite Map_get_set_eq. cbn [fmap option_fmap option_map User.color].
  rewrite colorIndex_run. cbn [colorIndex initial]. rewrite Nat.add_0_l.
  symmetry. apply (palette_lookup (connections tr)).
Qed.

(** X13 — Two sockets are given the same colour exactly when the numbers
    of connections handled before each of them differ by a multiple of 8:
    any eight connections in a row wear eight different colours. *)
Theorem same_colour_iff_eight_apart
    (tr1 tr2 : list Inbound) (sid1 sid2 : string) (t1 t2 : number) :
  colour_on_joining (run initial tr1) sid1 t1 =
    colour_on_joining (run initial tr2) sid2 t2
  <-> connections tr1 mod 8 = connections tr2 mod 8.
Proof.
  rewrite !colour_on_joining_eq. split; [|by intros ->].
  intros Hsame.
  pose proof (Nat.mod_upper_bound (connections tr1) 8) as Hlt1.
  destruct (userColors !! (connections tr1 mod 8)) as [c|] eqn:Hc.
  - symmetry in Hsame. by eapply NoDup_lookup; [apply userColors_NoDup|..].
  - apply lookup_ge_None in Hc. simpl in Hc. lia.
Qed.

(** ** Who hears of an event *)

Lemma emitted_addressed st i :
  Forall (fun e => addressed_from (socket_id i) (target e)) (emitted st i).
Proof.
  destruct i as [sid t e]. unfold emitted, handle, addressed_from.
  destruct e; cbn [received socket_id now];
    rewrite ?exec_on_connection, ?exec_on_draw_start, ?exec_on_draw_move,
      ?exec_on_cursor_move, ?exec_on_undo, ?exec_on_redo, ?exec_on_erase,
      ?exec_on_disconnect;
    try destruct (Map_get _ _); try destruct (drawingHistory st);
    repeat apply Forall_cons_2; try apply Forall_nil_2; simpl; auto.
Qed.

Lemma inbox_of_another_socket c sid out :
  c <> sid ->
  Forall (fun e => addressed_from sid (target e)) out ->
  inbox c out = event <$> filter (fun e => negb (is_private (target e))) out.
Proof.
  intros Hc Hout. unfold inbox. f_equal.
  induction Hout as [|e out He _ IH]; [done|].
  destruct He as [He|[He|He]].
  - rewrite !filter_cons_False
      by (rewrite He; simpl; first [tauto | by intros ?%bool_decide_unpack]).
    apply IH.
  - rewrite !filter_cons_True
      by (rewrite He; simpl; first [done | by apply bool_decide_pack]).
    by rewrite IH.
  - rewrite !filter_cons_True by (rewrite He; simpl; done).
    by rewrite IH.
Qed.

Lemma inbox_own_broadcast sid ev :
  inbox sid [mkEmit (socket_broadcast_emit sid) ev] = [].
Proof.
  unfold inbox. rewrite filter_cons_False; [done|].
  simpl. by intros ?%bool_decide_unpack.
Qed.

(** X14 — A listener addresses what it emits to its own socket, to all
    sockets but its own, or to all sockets, never to one other socket.
    The sender hears nothing back of its own [draw-start], [draw-move],
    [draw-end], [cursor-move], [erase] and [disconnect]; every other
    connected socket receives all that a listener emits except what is
    sent with [socket.emit] ([user-assigned], [initial-state], the answer
    to [get-user]). *)
Theorem sockets_hear_of_each_others_events :
  (forall st i,
      Forall (fun e => addressed_from (socket_id i) (target e)) (emitted st i))
  /\ (forall st i,
        answered (received i) = false ->
        inbox (socket_id i) (emitted st i) = [])
  /\ (forall st i c,
        c <> socket_id i ->
        inbox c (emitted st i) =
          event <$> filter (fun e => negb (is_private (target e))) (emitted st i)).
Proof.
  split_and!.
  - apply emitted_addressed.
  - intros st [sid t e]. unfold emitted, handle.
    destruct e; cbn [received socket_id now answered]; try done; intros _;
      rewrite ?exec_on_draw_start, ?exec_on_draw_move, ?exec_on_cursor_move,
        ?exec_on_erase, ?exec_on_disconnect;
      try destruct (Map_get _ _); try done;
      exact (inbox_own_broadcast sid _).
  - intros st i c Hc. apply (inbox_of_another_socket c (socket_id i)); [done|].
    apply emitted_addressed.
Qed.

Lemma sockets_hear_of_each_others_events_witness :
  let st := run initial [arrival "s1" recv_connection; arrival "s2" recv_connection] in
  let move := arrival "s1" (recv_cursor_move (Cursor.mk 1%float 2%float)) in
  inbox "s1" (emitted st move) = []
  /\ inbox "s2" (emitted st move) =
       [ user_cursor "s1" (Cursor.mk 1%float 2%float) "s1" "User 1" "#FF6B6B" ].
Proof.
  intros st move.
  destruct sockets_hear_of_each_others_events as (_ & Hown & Hother). split.
  - by apply (Hown st move).
  - rewrite (Hother st move "s2"); [reflexivity|discriminate].
Defined.

(** ** Erase, again *)

(** X15 — The Operation an [erase] appends has one point for each point of
    the payload, in the same order, with the same coordinates and without
    pressure: the radii are dropped.  An [erase] never merges with what
    the log holds: sent again under an id the log already bears, it adds
    one more Operation bearing that id. *)
Theorem erase_keeps_coordinates_and_never_merges
    (st : State) (sid : string) (t : number)
    (operationId : string) (pts : list ErasePoint.t) :
  let st' := step st (mkInbound sid t (recv_erase operationId pts)) in
  exists op,
    drawingHistory st' = drawingHistory st ++ [op]
    /\ Forall2 (fun p q => Point.x q = ErasePoint.x p
                           /\ Point.y q = ErasePoint.y p
                           /\ Point.pressure q = None)
               pts (DrawingOperation.points op)
    /\ length (filter (bears operationId) (drawingHistory st')) =
         S (length (filter (bears operationId) (drawingHistory st))).
Proof.
  intros st'. subst st'. unfold step, handle; cbn [received socket_id now].
  rewrite exec_on_erase. cbn zeta. cbn [fst drawingHistory].
  eexists. split_and!; [reflexivity| |].
  - simpl. apply Forall2_fmap_r, Forall_Forall2_diag, Forall_forall. by intros p _.
  - rewrite filter_app, length_app, filter_cons_True by done. simpl. lia.
Qed.

(** * The client's user list *)

Lemma exec_on_draw_end sid operationId st :
  exec (on_draw_end sid operationId) st =
    (st, [ mkEmit (socket_broadcast_emit sid) (draw_end operationId) ]).
Proof. reflexivity. Qed.

Lemma exec_on_get_user sid userId st :
  exec (on_get_user sid userId) st =
    (st, [ mkEmit (socket_emit sid)
             (get_user_callback (Map_get userId (users st))) ]).
Proof. reflexivity. Qed.

Lemma inbox_cons c e out :
  inbox c (e :: out) =
    (if reaches c (target e) then [event e] else []) ++ inbox c out.
Proof.
  unfold inbox. rewrite filter_cons.
  destruct (reaches c (target e)); by simpl.
Qed.

Lemma inbox_nil c : inbox c [] = [].
Proof. reflexivity. Qed.

(** In a well-formed registry the ids of the users are the keys. *)
Lemma ids_of_values m :
  registry_ok m -> User.id <$> Map_values m = Map_keys m.
Proof.
  intros [_ Hids]. unfold Map_values, Map_keys.
  induction Hids as [|[k u] m [Hid _] _ IH]; [done|].
  rewrite !fmap_cons. simpl in *. by rewrite Hid, IH.
Qed.

Section UserList_ids.
Implicit Types (prev : list User.t) (user : User.t).

Lemma find_by_id_None (k : string) prev :
  list_find (fun u => User.id u = k) prev = None <-> k ∉ User.id <$> prev.
Proof.
  rewrite list_find_None, Forall_forall, list_elem_of_fmap. split.
  - intros Hnone (u & -> & Hu). by apply (Hnone u).
  - intros Hnot u Hu Hid. apply Hnot. by exists u.
Qed.

Lemma ids_on_user_joined user prev :
  User.id <$> UserList.on_user_joined user prev =
    if decide (User.id user ∈ User.id <$> prev)
    then User.id <$> prev else (User.id <$> prev) ++ [User.id user].
Proof.
  unfold UserList.on_user_joined.
  destruct (list_find _ prev) as [found|] eqn:Hfind.
  - rewrite decide_True; [done|].
    destruct (decide (User.id user ∈ User.id <$> prev)) as [|Hnot]; [done|].
    apply find_by_id_None in Hnot. congruence.
  - rewrite decide_False by by apply find_by_id_None.
    by rewrite fmap_app.
Qed.

Lemma ids_on_user_left (k : string) prev :
  User.id <$> UserList.on_user_left k prev =
    filter (fun k' => k' <> k) (User.id <$> prev).
Proof.
  unfold UserList.on_user_left. induction prev as [|u prev IH]; [done|].
  rewrite fmap_cons, !filter_cons.
  destruct (decide (User.id u <> k)); [rewrite fmap_cons; f_equal|]; apply IH.
Qed.

Lemma ids_on_user_cursor (k : string) cursor prev :
  User.id <$> UserList.on_user_cursor k cursor prev = User.id <$> prev.
Proof.
  unfold UserList.on_user_cursor. rewrite <- list_fmap_compose.
  apply list_fmap_ext. intros _ u _. simpl. by case_decide.
Qed.

End UserList_ids.

(** Its own connection brings the list of [c] up to date. *)
Lemma hear_own_connection c t st cl :
  registry_ok (users st) ->
  let join := mkInbound c t recv_connection in
  synced c (step st join, UserList.hear (inbox c (emitted st join)) cl).
Proof.
  intros Hok join. subst join.
  pose proof (registry_ok_step st (mkInbound c t recv_connection) Hok) as Hok'.
  unfold synced, UserList.hear, emitted. cbn [fst snd].
  split; [done|]. revert Hok'.
  unfold step, handle; cbn [received socket_id].
  rewrite exec_on_connection. cbn zeta. cbn [fst snd users].
  intros Hok'. rewrite !inbox_cons, inbox_nil. cbn [target event reaches].
  rewrite bool_decide_eq_true_2 by done.
  rewrite bool_decide_eq_false_2 by (by intros []).
  simpl. split; [|done]. by apply ids_of_values.
Qed.

(** Whatever arrives next, short of the disconnect of [c], keeps it so. *)
Lemma hear_synced c st cl i :
  synced c (st, cl) ->
  (socket_id i = c -> is_disconnect i = false) ->
  synced c (step st i, UserList.hear (inbox c (emitted st i)) cl).
Proof.
  intros (Hok & Hids & Hme) Hstay. cbn [fst snd] in *.
  destruct i as [s t e].
  pose proof (registry_ok_step st (mkInbound s t e) Hok) as Hok'.
  destruct e.
  1: destruct (decide (c = s)) as [<-|Hcs]; [by apply hear_own_connection|].
  all: unfold synced, UserList.hear, emitted; cbn [fst snd];
    (split; [done|]); clear Hok';
    unfold step, handle, is_disconnect in *; cbn [received socket_id now] in *.
  - rewrite exec_on_connection. cbn zeta. cbn [fst snd users].
    rewrite !inbox_cons, inbox_nil. cbn [target event reaches].
    rewrite bool_decide_eq_false_2, bool_decide_eq_true_2 by done.
    simpl. split; [|done].
    rewrite ids_on_user_joined, Map_set_keys, Hids. done.
  - rewrite exec_on_draw_start. cbn [fst snd users].
    rewrite inbox_cons, inbox_nil. cbn [target event reaches].
    by case_bool_decide.
  - rewrite exec_on_draw_move. cbn [fst snd].
    rewrite inbox_cons, inbox_nil. cbn [target event reaches].
    destruct (list_find _ _) as [[ref op]|]; by case_bool_decide.
  - rewrite exec_on_draw_end. cbn [fst snd].
    rewrite inbox_cons, inbox_nil. cbn [target event reaches].
    by case_bool_decide.
  - rewrite exec_on_cursor_move.
    destruct (Map_get s (users st)) as [u|] eqn:Hu; [|done].
    cbn [fst snd users]. rewrite inbox_cons, inbox_nil. cbn [target event reaches].
    rewrite Map_set_keys_present by eauto.
    case_bool_decide; simpl; [|done]. by rewrite ids_on_user_cursor.
  - rewrite exec_on_get_user. cbn [fst snd].
    rewrite inbox_cons, inbox_nil. cbn [target event reaches].
    by case_bool_decide.
  - rewrite exec_on_undo. by destruct (drawingHistory st).
  - by rewrite exec_on_redo.
  - rewrite exec_on_erase. cbn [fst snd users].
    rewrite inbox_cons, inbox_nil. cbn [target event reaches].
    by case_bool_decide.
  - assert (c <> s) as Hcs by (intros ->; by specialize (Hstay eq_refl)).
    rewrite exec_on_disconnect. cbn [fst snd users].
    rewrite inbox_cons, inbox_nil. cbn [target event reaches].
    rewrite bool_decide_eq_true_2 by done. simpl. split; [|done].
    by rewrite ids_on_user_left, Map_delete_keys, Hids.
Qed.

(** What a socket hears of its own connection. *)
Lemma heard_own_connection c t st :
  exists colour name all log,
    heard c st [mkInbound c t recv_connection]
    = [user_assigned c colour name; initial_state all log].
Proof.
  unfold heard, emitted, handle. cbn [received socket_id].
  rewrite exec_on_connection. cbn zeta. cbn [fst snd].
  rewrite !inbox_cons, inbox_nil. cbn [target event reaches].
  rewrite bool_decide_eq_true_2 by done.
  rewrite bool_decide_eq_false_2 by (by intros []).
  by eexists _, _, _, _.
Qed.

Lemma hear_app evs1 evs2 cl :
  UserList.hear (evs1 ++ evs2) cl = UserList.hear evs2 (UserList.hear evs1 cl).
Proof. apply foldl_app. Qed.

Lemma hear_heard_synced c tr st cl :
  synced c (st, cl) ->
  Forall (fun i => socket_id i = c -> is_disconnect i = false) tr ->
  synced c (run st tr, UserList.hear (heard c st tr) cl).
Proof.
  intros Hsynced Hstay. revert st cl Hsynced.
  induction Hstay as [|i tr Hi _ IH]; intros st cl Hsynced; [done|].
  cbn [heard]. rewrite hear_app, run_cons. apply IH. by apply hear_synced.
Qed.

(** ** The listeners on the socket of the page *)

Section Page_facts.
Implicit Types (s : Page.t) (e : ServerEvent) (k : Page.tick)
  (schedule : list Page.tick).

Lemma play_app s schedule1 schedule2 :
  Page.play s (schedule1 ++ schedule2)
  = Page.play (Page.play s schedule1) schedule2.
Proof. apply foldl_app. Qed.

(** No listener registers or removes a listener, or runs an effect. *)
Lemma call_frame who e s :
  Page.listeners (Page.call who e s) = Page.listeners s
  /\ Page.cursorDeps (Page.call who e s) = Page.cursorDeps s
  /\ (is_Some (Page.cursorUserId s) ->
      is_Some (Page.cursorUserId (Page.call who e s))).
Proof. destruct who, e; cbn; eauto. Qed.

Lemma receive_frame e s :
  Page.listeners (Page.receive e s) = Page.listeners s
  /\ Page.cursorDeps (Page.receive e s) = Page.cursorDeps s
  /\ (is_Some (Page.cursorUserId s) ->
      is_Some (Page.cursorUserId (Page.receive e s))).
Proof.
  unfold Page.receive. destruct (event_name e) as [name|]; [|done].
  generalize (filter (fun l => l.1 = name) (Page.listeners s)).
  intros called. revert s.
  induction called as [|l called IH]; intros s; [done|].
  cbn [foldl]. destruct (IH (Page.call l.2 e s)) as (-> & -> & Hsome).
  destruct (call_frame l.2 e s) as (-> & -> & Hsome'). eauto.
Qed.

(** With the listeners as they are once the page is mounted, [UserList]
    hears every event, and [CursorIndicator] who the user is. *)
Lemma receive_mounted e s :
  Page.listeners s = Page.listeners Page.mounted ->
  Page.userList (Page.receive e s) = UserList.on e (Page.userList s).
Proof.
  destruct s as [table cv cl current deps]. cbn [Page.listeners].
  intros ->. by destruct e.
Qed.

Lemma receive_user_assigned userId colour name s :
  Page.listeners s = Page.listeners Page.mounted
  \/ Page.listeners s = Page.rewired ->
  Page.cursorUserId (Page.receive (user_assigned userId colour name) s)
  = Some userId.
Proof.
  destruct s as [table cv cl current deps]. cbn [Page.listeners].
  by intros [-> | ->].
Qed.

Lemma play_receives (events : list ServerEvent) s :
  Page.listeners s = Page.listeners Page.mounted ->
  Page.userList (Page.play s (Page.receives <$> events))
  = UserList.hear events (Page.userList s).
Proof.
  revert s. induction events as [|e events IH]; intros s Hs; [done|].
  rewrite fmap_cons. unfold Page.play, UserList.hear in *. cbn [foldl Page.turn].
  rewrite IH.
  - by rewrite receive_mounted.
  - by rewrite (proj1 (receive_frame e s)).
Qed.

(** Once the effect of [CursorIndicator] has been run again, the
    listeners stay as that has left them, and [UserList] hears nothing. *)
Lemma rewired_deaf : Page.of_UserList ∉ Page.rewired.*2.
Proof. by apply (bool_decide_unpack _). Qed.

Lemma turn_rewired k s :
  Page.listeners s = Page.rewired ->
  Page.listeners (Page.turn s k) = Page.rewired
  /\ Page.userList (Page.turn s k) = Page.userList s.
Proof.
  destruct s as [table cv cl current deps]. cbn [Page.listeners].
  intros ->. destruct k as [e|].
  - by destruct e.
  - unfold Page.turn, Page.commit. cbn [Page.cursorUserId Page.cursorDeps].
    by case_decide.
Qed.

Lemma play_rewired schedule s :
  Page.listeners s = Page.rewired ->
  Page.listeners (Page.play s schedule) = Page.rewired
  /\ Page.userList (Page.play s schedule) = Page.userList s.
Proof.
  revert s. induction schedule as [|k schedule IH]; intros s Hs; [done|].
  unfold Page.play in *. cbn [foldl].
  destruct (turn_rewired k s Hs) as [Hs' <-]. by apply IH.
Qed.

(** Until then the effect in place is the one of the first render. *)
Lemma turn_first_effect k s :
  (Page.listeners s = Page.listeners Page.mounted /\ Page.cursorDeps s = None)
  \/ Page.listeners s = Page.rewired ->
  (Page.listeners (Page.turn s k) = Page.listeners Page.mounted
   /\ Page.cursorDeps (Page.turn s k) = None)
  \/ Page.listeners (Page.turn s k) = Page.rewired.
Proof.
  intros [[Hs Hdeps]|Hs]; [|right; by apply turn_rewired].
  destruct k as [e|]; cbn [Page.turn].
  - left. destruct (receive_frame e s) as (-> & -> & _). done.
  - unfold Page.commit. case_decide; [by left|right].
    cbn [Page.listeners]. by rewrite Hs.
Qed.

Lemma play_first_effect schedule s :
  (Page.listeners s = Page.listeners Page.mounted /\ Page.cursorDeps s = None)
  \/ Page.listeners s = Page.rewired ->
  (Page.listeners (Page.play s schedule) = Page.listeners Page.mounted
   /\ Page.cursorDeps (Page.play s schedule) = None)
  \/ Page.listeners (Page.play s schedule) = Page.rewired.
Proof.
  revert s. induction schedule as [|k schedule IH]; intros s Hs; [done|].
  unfold Page.play in *. cbn [foldl]. apply IH. by apply turn_first_effect.
Qed.

Lemma play_knows_user schedule s :
  is_Some (Page.cursorUserId s) ->
  is_Some (Page.cursorUserId (Page.play s schedule)).
Proof.
  revert s. induction schedule as [|k schedule IH]; intros s Hs; [done|].
  unfold Page.play in *. cbn [foldl]. apply IH.
  destruct k as [e|]; cbn [Page.turn].
  - by apply receive_frame.
  - unfold Page.commit. by case_decide.
Qed.

(** The first commit after a [user-assigned] leaves [UserList] without a
    listener. *)
Lemma play_until_commit schedule0 schedule1 userId colour name :
  Page.listeners
    (Page.play Page.mounted
       (schedule0 ++ Page.receives (user_assigned userId colour name)
          :: schedule1 ++ [Page.commits]))
  = Page.rewired.
Proof.
  rewrite play_app. set (s0 := Page.play Page.mounted schedule0).
  assert ((Page.listeners s0 = Page.listeners Page.mounted
           /\ Page.cursorDeps s0 = None)
          \/ Page.listeners s0 = Page.rewired) as Hs0.
  { apply play_first_effect. by left. }
  change (Page.play s0 (?e :: ?l)) with (Page.play (Page.turn s0 e) l).
  set (s1 := Page.turn s0 _).
  assert (is_Some (Page.cursorUserId s1)) as Hknown.
  { subst s1. cbn [Page.turn]. rewrite receive_user_assigned; [done|].
    destruct Hs0 as [[? _]|?]; auto. }
  pose proof (turn_first_effect (Page.receives (user_assigned userId colour name))
                s0 Hs0) as Hs1. fold s1 in Hs1.
  rewrite play_app. set (s2 := Page.play s1 schedule1).
  pose proof (play_first_effect schedule1 s1 Hs1) as Hs2. fold s2 in Hs2.
  pose proof (play_knows_user schedule1 s1 Hknown) as Hknown2. fold s2 in Hknown2.
  unfold Page.play. cbn [foldl Page.turn].
  destruct Hs2 as [[Hs2 Hdeps]|Hs2].
  - unfold Page.commit. rewrite Hdeps. destruct Hknown2 as [u ->].
    rewrite decide_False by done. cbn [Page.listeners]. by rewrite Hs2.
  - by apply (turn_rewired Page.commits).
Qed.

(** From then on the list is what it was at that commit. *)
Lemma play_frozen schedule0 schedule1 userId colour name rest :
  let schedule :=
    schedule0 ++ Page.receives (user_assigned userId colour name)
      :: schedule1 ++ [Page.commits] in
  Page.listeners (Page.play Page.mounted (schedule ++ rest)) = Page.rewired
  /\ Page.userList (Page.play Page.mounted (schedule ++ rest))
     = Page.userList (Page.play Page.mounted schedule).
Proof.
  intros schedule. rewrite play_app.
  apply play_rewired. apply play_until_commit.
Qed.

Lemma commit_userList s : Page.userList (Page.commit s) = Page.userList s.
Proof. unfold Page.commit. by case_decide. Qed.

End Page_facts.

(** A page that has received what its connection brought, and then
    commits, is left with what [UserList] made of that. *)
Lemma play_stuck_on_joining c t st rest :
  let join := mkInbound c t recv_connection in
  Page.userList
    (Page.play Page.mounted
       ((Page.receives <$> heard c st [join]) ++ Page.commits :: rest))
  = UserList.hear (heard c st [join]) UserList.initial.
Proof.
  intros join. change UserList.initial with (Page.userList Page.mounted).
  rewrite <- (play_receives (heard c st [join]) Page.mounted) by done.
  destruct (heard_own_connection c t st)
    as (colour & name & all & log & Hheard).
  fold join in Hheard. rewrite Hheard.
  change ((Page.receives <$> [user_assigned c colour name;
                              initial_state all log])
            ++ Page.commits :: rest)
    with (([] ++ Page.receives (user_assigned c colour name)
              :: [Page.receives (initial_state all log)] ++ [Page.commits])
            ++ rest).
  rewrite (proj2 (play_frozen _ _ _ _ _ _)).
  change ([] ++ Page.receives (user_assigned c colour name)
             :: [Page.receives (initial_state all log)] ++ [Page.commits])
    with ((Page.receives <$> [user_assigned c colour name;
                              initial_state all log]) ++ [Page.commits]).
  rewrite play_app. unfold Page.play at 1. cbn [foldl Page.turn].
  apply commit_userList.
Qed.

(** X16 — [UserList] is written to follow the registry, and does so for
    as long as its listeners are on the socket: if the page of a socket
    that has connected, and does not disconnect, has received what the
    server sent it and React has not committed since, the list holds the
    ids of exactly the users the server has registered, in the order of
    the registry, and knows its own id.  But the first commit after
    [user-assigned] re-runs the effect of [CursorIndicator], whose cleanup
    calls [socket.off] without a listener: from then on [UserList] has no
    listener on the socket and the list never changes again, whatever is
    received.  A page that has received [user-assigned] and
    [initial-state] before that commit goes on showing the users that
    were registered when its socket connected. *)
Theorem user_list_follows_the_registry_until_the_effect_reruns
    (before after : list Inbound) (c : string) (t : number) :
  let join := mkInbound c t recv_connection in
  let st := run initial before in
  Forall (fun i => socket_id i = c -> is_disconnect i = false) after ->
  (let pg := Page.play Page.mounted
               (Page.receives <$> heard c st (join :: after)) in
   User.id <$> UserList.users (Page.userList pg)
     = Map_keys (users (run st (join :: after)))
   /\ NoDup (User.id <$> UserList.users (Page.userList pg))
   /\ UserList.currentUserId (Page.userList pg) = Some c)
  /\ (forall schedule0 schedule1 userId colour name rest,
        let schedule :=
          schedule0 ++ Page.receives (user_assigned userId colour name)
            :: schedule1 ++ [Page.commits] in
        (Page.of_UserList
           ∉ (Page.listeners (Page.play Page.mounted (schedule ++ rest))).*2)
        /\ Page.userList (Page.play Page.mounted (schedule ++ rest))
           = Page.userList (Page.play Page.mounted schedule))
  /\ (forall rest,
        let pg := Page.play Page.mounted
                    ((Page.receives <$> heard c st [join])
                       ++ Page.commits :: rest) in
        User.id <$> UserList.users (Page.userList pg)
          = Map_keys (users (step st join))).
Proof.
  intros join st Hafter.
  assert (forall tr,
            Forall (fun i => socket_id i = c -> is_disconnect i = false) tr ->
            synced c (run st (join :: tr),
                      Page.userList
                        (Page.play Page.mounted
                           (Page.receives <$> heard c st (join :: tr)))))
    as Hwindow.
  { intros tr Htr. rewrite play_receives by done.
    cbn [heard]. rewrite hear_app, run_cons.
    apply hear_heard_synced; [|done].
    apply hear_own_connection. apply registry_is_well_formed_run. }
  assert (forall schedule0 schedule1 userId colour name rest,
            let schedule :=
              schedule0 ++ Page.receives (user_assigned userId colour name)
                :: schedule1 ++ [Page.commits] in
            (Page.of_UserList
               ∉ (Page.listeners (Page.play Page.mounted (schedule ++ rest))).*2)
            /\ Page.userList (Page.play Page.mounted (schedule ++ rest))
               = Page.userList (Page.play Page.mounted schedule))
    as Hfrozen.
  { intros schedule0 schedule1 userId colour name rest schedule.
    destruct (play_frozen schedule0 schedule1 userId colour name rest)
      as [Hrewired Hlist].
    split; [|done]. subst schedule. rewrite Hrewired. apply rewired_deaf. }
  split_and!.
  - destruct (Hwindow after Hafter) as (Hok & Hids & Hme). cbn [fst snd] in *.
    split_and!; [done| |done]. rewrite Hids. apply Hok.
  - done.
  - intros rest pg. subst pg.
    destruct (Hwindow [] ltac:(constructor)) as (_ & Hids & _).
    cbn [fst snd] in Hids. change (run st [join]) with (step st join) in Hids.
    rewrite <- Hids. subst join.
    by rewrite play_stuck_on_joining, play_receives.
Qed.

Lemma user_list_follows_the_registry_until_the_effect_reruns_witness :
  let st := run initial [arrival "s1" recv_connection] in
  let join := arrival "s2" recv_connection in
  let later := [arrival "s3" recv_connection; arrival "s1" recv_disconnect] in
  User.id <$> UserList.users
    (Page.userList
       (Page.play Page.mounted (Page.receives <$> heard "s2" st (join :: later))))
  = ["s2"; "s3"]
  /\ User.id <$> UserList.users
       (Page.userList
          (Page.play Page.mounted
             ((Page.receives <$> heard "s2" st [join])
                ++ Page.commits
                :: (Page.receives <$> heard "s2" (step st join) later))))
     = ["s1"; "s2"].
Proof.
  intros st join later.
  destruct (user_list_follows_the_registry_until_the_effect_reruns
              [arrival "s1" recv_connection] later "s2" 1000%float)
    as ((Hids & _) & _ & Hstuck).
  - repeat constructor; discriminate.
  - split; [exact Hids|].
    exact (Hstuck (Page.receives <$> heard "s2" (step st join) later)).
Defined.

(** * Canvas utilities *)

Section optimizePath.
Variable threshold : number.
Variable points : list Point.t.

(** What a turn of the loop adds. *)
Let added (i : nat) : list Point.t :=
  optimize_at threshold points [] i.

Lemma optimize_at_app optimized i :
  optimize_at threshold points optimized i = optimized ++ added i.
Proof.
  unfold added, optimize_at.
  destruct (points !! (i - 1)), (points !! i), (points !! (i + 1));
    rewrite ?app_nil_r; try done.
  destruct (off_line _ _ _ _); by rewrite ?app_nil_r.
Qed.

Lemma optimize_loop optimized (indices : list nat) :
  foldl (optimize_at threshold points) optimized indices =
    optimized ++ (indices ≫= added).
Proof.
  revert optimized. induction indices as [|i indices IH]; intros optimized.
  - simpl. by rewrite app_nil_r.
  - simpl. rewrite IH, optimize_at_app. by rewrite (assoc_L (++)).
Qed.

Lemma added_sublist i p : points !! i = Some p -> added i `sublist_of` [p].
Proof.
  intros Hp. unfold added, optimize_at. rewrite Hp.
  destruct (points !! (i - 1)), (points !! (i + 1)); try apply sublist_nil_l.
  destruct (off_line _ _ _ _); [done|apply sublist_nil_l].
Qed.

Lemma added_run_sublist (a k : nat) :
  a + k <= length points ->
  seq a k ≫= added `sublist_of` take k (drop a points).
Proof.
  revert a. induction k as [|k IH]; intros a Hlen; [done|].
  destruct (lookup_lt_is_Some_2 points a) as [p Hp]; [lia|].
  rewrite (drop_S _ _ _ Hp). cbn [seq take]. rewrite bind_cons.
  apply (sublist_app _ [p]).
  - by apply added_sublist.
  - apply IH. lia.
Qed.

End optimizePath.

Lemma ends_and_middle {A} (l : list A) :
  2 <= length l ->
  l = option_list (l !! 0) ++ take (length l - 2) (drop 1 l)
      ++ option_list (l !! (length l - 1)).
Proof.
  intros Hlen. destruct l as [|x l]; [simpl in Hlen; lia|].
  change (length (x :: l)) with (S (length l)) in *.
  destruct (lookup_lt_is_Some_2 l (length l - 1)) as [y Hy]; [lia|].
  replace (S (length l) - 1) with (S (length l - 1)) by lia.
  replace (S (length l) - 2) with (length l - 1) by lia.
  change ((x :: l) !! S (length l - 1)) with (l !! (length l - 1)).
  change ((x :: l) !! 0) with (Some x). change (drop 1 (x :: l)) with l.
  rewrite Hy. simpl. f_equal.
  rewrite <- (take_S_r _ _ _ Hy). rewrite take_ge; [done|lia].
Qed.

Lemma optimizePath_shape (points : list Point.t) (threshold : number) :
  (length points < 2 -> optimizePath points threshold = points)
  /\ optimizePath points threshold `sublist_of` points
  /\ (2 <= length points ->
      head (optimizePath points threshold) = head points
      /\ last (optimizePath points threshold) = last points
      /\ 2 <= length (optimizePath points threshold) <= length points).
Proof.
  unfold optimizePath.
  destruct (length points <? 2)%nat eqn:Hshort.
  { apply Nat.ltb_lt in Hshort. split_and!; [done..|lia]. }
  apply Nat.ltb_ge in Hshort. rewrite optimize_loop.
  pose proof (added_run_sublist threshold points 1 (length points - 2)) as Hmid.
  pose proof (ends_and_middle points Hshort) as Hsplit.
  destruct (lookup_lt_is_Some_2 points 0) as [first Hfirst]; [lia|].
  destruct (lookup_lt_is_Some_2 points (length points - 1)) as [final Hfinal]; [lia|].
  rewrite Hfirst, Hfinal in *. cbn [option_list option_rect] in *.
  assert (([first] ++ seq 1 (length points - 2)
                        ≫= (fun i => optimize_at threshold points [] i))
            ++ [final]
          `sublist_of`
          [first] ++ take (length points - 2) (drop 1 points) ++ [final])
    as Hsub.
  { rewrite <- (assoc_L (++)).
    apply sublist_app; [done|]. apply sublist_app; [|done].
    apply Hmid. lia. }
  rewrite <- Hsplit in Hsub.
  split_and!.
  - lia.
  - exact Hsub.
  - intros _. split_and!.
    + by rewrite (head_lookup points), Hfirst.
    + rewrite last_snoc, last_lookup. rewrite <- Hfinal. f_equal. lia.
    + rewrite !length_app. simpl. lia.
    + by apply sublist_length.
Qed.

(** X17 — [optimizePath] gives back a path of fewer than two points as it
    is.  Of a longer path it keeps the first and the last point and some
    of the points between, in their order: the result is a sub-sequence of
    the path, with at least two points and no more than the path has. *)
Theorem optimizePath_keeps_ends_and_order
    (points : list Point.t) (threshold : number) :
  (length points < 2 -> optimizePath points threshold = points)
  /\ optimizePath points threshold `sublist_of` points
  /\ (2 <= length points ->
      head (optimizePath points threshold) = head points
      /\ last (optimizePath points threshold) = last points
      /\ 2 <= length (optimizePath points threshold) <= length points).
Proof. apply optimizePath_shape. Qed.

Lemma optimizePath_keeps_ends_and_order_witness :
  let path := [ Point.mk 0 0 None; Point.mk 1 0 None;
                Point.mk 2 5 None; Point.mk 3 0 None ]%float in
  optimizePath [Point.mk 0%float 0%float None] 1%float =
    [Point.mk 0%float 0%float None]
  /\ head (optimizePath path 1%float) = head path
  /\ last (optimizePath path 1%float) = last path.
Proof.
  intros path. split.
  - apply (proj1 (optimizePath_keeps_ends_and_order
                    [Point.mk 0%float 0%float None] 1%float)).
    simpl. lia.
  - destruct (proj2 (proj2 (optimizePath_keeps_ends_and_order path 1%float)))
      as (Hhead & Hlast & _); [simpl; lia|].
    by split.
Defined.

Section Batcher_facts.
Context {T : Type}.
Implicit Types (b : Batcher.t T) (turns : list (Batcher.turn T)).

Lemma items_call item turns :
  Batcher.items (Batcher.call item :: turns) = item :: Batcher.items turns.
Proof. reflexivity. Qed.

Lemma items_fire turns :
  Batcher.items (Batcher.fire :: turns) = Batcher.items turns.
Proof. reflexivity. Qed.

Lemma queue_push item b :
  Batcher.queue (Batcher.push item b) = Batcher.queue b ++ [item].
Proof. unfold Batcher.push. by destruct (Batcher.timer b). Qed.

Lemma timer_push item b : Batcher.timer (Batcher.push item b) = true.
Proof. unfold Batcher.push. by destruct (Batcher.timer b). Qed.

Lemma play_from b0 turns b batches :
  (Batcher.timer b0 = true <-> Batcher.queue b0 <> []) ->
  Batcher.play b0 turns = Some (b, batches) ->
  concat batches ++ Batcher.queue b = Batcher.queue b0 ++ Batcher.items turns
  /\ (Batcher.timer b = true <-> Batcher.queue b <> [])
  /\ Forall (fun batch => batch <> []) batches.
Proof.
  revert b0 b batches.
  induction turns as [|[item|] turns IH]; intros b0 b batches Hb0 Hplay.
  - simpl in Hplay. simplify_eq. simpl. by rewrite app_nil_r.
  - simpl in Hplay. apply IH in Hplay as (Hitems & Htimer & Hbatches).
    + split_and!; [|done..].
      by rewrite Hitems, queue_push, items_call, <- (assoc_L (++)).
    + rewrite queue_push, timer_push.
      split; [intros _; by destruct (Batcher.queue b0)|done].
  - simpl in Hplay. destruct (Batcher.timer b0) eqn:Htimer0; [|done].
    destruct (Batcher.play _ turns) as [[b' batches']|] eqn:Hrest; [|done].
    simpl in Hplay. simplify_eq.
    apply IH in Hrest as (Hitems & Htimer & Hbatches); [|done].
    split_and!; [|done|].
    + rewrite items_fire. cbn [Batcher.queue app] in Hitems.
      cbn [concat]. by rewrite <- (assoc_L (++)), Hitems.
    + constructor; [|done]. by apply Hb0.
Qed.

End Batcher_facts.

(** X18 — A batcher hands each item it is called with to its callback
    exactly once, in the order of the calls: at any moment the batches
    handed over so far, one after the other and followed by the queue, are
    the items of the calls so far.  A timeout is pending exactly when the
    queue is not empty, and no batch is empty. *)
Theorem batcher_delivers_each_item_once_in_order
    {T : Type} (turns : list (Batcher.turn T))
    (b : Batcher.t T) (batches : list (list T)) :
  Batcher.play Batcher.initial turns = Some (b, batches) ->
  concat batches ++ Batcher.queue b = Batcher.items turns
  /\ (Batcher.timer b = true <-> Batcher.queue b <> [])
  /\ Forall (fun batch => batch <> []) batches.
Proof.
  intros Hplay. by apply (play_from Batcher.initial turns b batches).
Qed.

Lemma batcher_delivers_each_item_once_in_order_witness :
  concat [["a"; "b"]; ["c"]] ++ [] =
    Batcher.items [ Batcher.call "a"; Batcher.call "b"; Batcher.fire;
                    Batcher.call "c"; Batcher.fire ].
Proof.
  apply (batcher_delivers_each_item_once_in_order
           [ Batcher.call "a"; Batcher.call "b"; Batcher.fire;
             Batcher.call "c"; Batcher.fire ]
           (Batcher.mk [] false) [["a"; "b"]; ["c"]]).
  reflexivity.
Defined.

(** * The client's canvas *)

Section mirrors.
Implicit Types (log : list DrawingOperation.t) (cv : Canvas.t)
  (op : DrawingOperation.t).











End mirrors.

Lemma exec_on_undo_snoc st log op :
  drawingHistory st = log ++ [op] ->
  exec on_undo st =
    (mkState log (users st) (colorIndex st),
     [ mkEmit io_emit (operation_removed (Some (DrawingOperation.id op))) ]).
Proof.
  intros Hlog. rewrite exec_on_undo, Hlog, removelast_last, last_snoc.
  by destruct log.
Qed.





(** What the history of a canvas shows, reference by reference. *)
Lemma shown_lookup cv (log : list DrawingOperation.t) j op :
  Canvas.shown cv = Some <$> log -> log !! j = Some op ->
  exists ref,
    Canvas.historyRef cv !! j = Some ref /\ Canvas.heap cv !! ref = Some op.
Proof.
  intros Hshown Hj.
  assert (Canvas.shown cv !! j = Some (Some op)) as Hs.
  { by rewrite Hshown, list_lookup_fmap, Hj. }
  unfold Canvas.shown in Hs. rewrite list_lookup_fmap in Hs.
  destruct (Canvas.historyRef cv !! j) as [ref|]; [|done].
  exists ref. split; [done|]. simpl in Hs. by injection Hs.
Qed.

Lemma shown_lookup_ref cv (log : list DrawingOperation.t) j ref :
  Canvas.shown cv = Some <$> log -> Canvas.historyRef cv !! j = Some ref ->
  exists op, log !! j = Some op /\ Canvas.heap cv !! ref = Some op.
Proof.
  intros Hshown Hj.
  assert (Canvas.shown cv !! j = Some (Canvas.heap cv !! ref)) as Hs.
  { unfold Canvas.shown. by rewrite list_lookup_fmap, Hj. }
  rewrite Hshown, list_lookup_fmap in Hs.
  destruct (log !! j) as [op|]; [|done].
  exists op. split; [done|]. simpl in Hs. by injection Hs.
Qed.

(** [operation-removed] takes the first path of the history that bears the
    id, wherever it stands, provided [allPathsRef] knows the id. *)
Lemma shown_removed cv (l1 l2 : list DrawingOperation.t) first k :
  Canvas.shown cv = Some <$> (l1 ++ first :: l2) ->
  is_Some (Map_get k (Canvas.allPathsRef cv)) ->
  bears k first -> Forall (fun o => ~ bears k o) l1 ->
  exists ref,
    Canvas.heap cv !! ref = Some first
    /\ Canvas.on_operation_removed (Some k) cv =
         Canvas.mk (Canvas.heap cv)
           (delete (length l1) (Canvas.historyRef cv))
           (ref :: Canvas.futureRef cv)
           (Map_delete k (Canvas.allPathsRef cv))
    /\ Canvas.shown (Canvas.on_operation_removed (Some k) cv)
       = Some <$> (l1 ++ l2).
Proof.
  intros Hshown [r Hr] Hfirst Hl1.
  destruct (shown_lookup cv _ (length l1) first Hshown) as (ref & Href & Hobj).
  { by apply list_lookup_middle. }
  assert (list_find (Canvas.bears_at (Canvas.heap cv) k) (Canvas.historyRef cv)
          = Some (length l1, ref)) as Hfind.
  { apply list_find_Some. split_and!.
    - done.
    - unfold Canvas.bears_at. rewrite Hobj. simpl. by rewrite Hfirst.
    - intros j r' Hj Hlt Hbears.
      destruct (shown_lookup_ref cv _ j r' Hshown Hj) as (o & Ho & Hobj').
      rewrite lookup_app_l in Ho by done.
      unfold Canvas.bears_at in Hbears. rewrite Hobj' in Hbears.
      simpl in Hbears. injection Hbears as Hbears.
      by eapply Forall_lookup_1 in Hl1. }
  assert (Canvas.on_operation_removed (Some k) cv =
            Canvas.mk (Canvas.heap cv)
              (delete (length l1) (Canvas.historyRef cv))
              (ref :: Canvas.futureRef cv)
              (Map_delete k (Canvas.allPathsRef cv))) as Hcv.
  { unfold Canvas.on_operation_removed. by rewrite Hr, Hfind. }
  exists ref. split_and!; [done..|].
  rewrite Hcv. unfold Canvas.shown in *.
  cbn [Canvas.heap Canvas.historyRef].
  by rewrite list_fmap_delete, Hshown, <- list_fmap_delete, delete_middle.
Qed.

(** A path that arrives is shown last. *)
Lemma shown_add_path cv (log : list DrawingOperation.t) op :
  Canvas.shown cv = Some <$> log ->
  Canvas.shown (Canvas.add_path op cv) = Some <$> (log ++ [op]).
Proof.
  intros Hshown. unfold Canvas.shown, Canvas.add_path.
  cbn [Canvas.heap Canvas.historyRef]. rewrite !fmap_app. f_equal.
  - rewrite <- Hshown. unfold Canvas.shown.
    apply list_fmap_ext. intros j ref Hj.
    destruct (shown_lookup_ref cv _ j ref Hshown Hj) as (o & _ & Hobj).
    rewrite Hobj. by apply lookup_app_l_Some.
  - simpl. f_equal. by apply list_lookup_middle.
Qed.

(** X20 — Take a client whose canvas history is the log and whose
    [allPathsRef] knows the id of the last Operation, and let the server
    handle an undo, from whichever socket.  The server drops the last
    Operation; the canvas drops the first Operation of its history that
    bears the id it is told, and a click on redo sends that one back.
    When the ids of the log are all different this is the Operation the
    server removed: log and history are again what they were.  When an
    earlier Operation bears the same id (every [erase] of one drag of the
    eraser does), the redo resupplies the earlier one: the server then
    holds it twice and no longer the one it removed, while the canvas
    still shows the removed one. *)
Theorem redo_click_resupplies_first_bearer_of_removed_id
    (st : State) (cv : Canvas.t) (c sid : string) (t t' : number)
    (log l1 l2 : list DrawingOperation.t) (op first : DrawingOperation.t) :
  drawingHistory st = log ++ [op] ->
  Canvas.shown cv = Some <$> drawingHistory st ->
  is_Some (Map_get (DrawingOperation.id op) (Canvas.allPathsRef cv)) ->
  drawingHistory st = l1 ++ first :: l2 ->
  bears (DrawingOperation.id op) first ->
  Forall (fun o => ~ bears (DrawingOperation.id op) o) l1 ->
  let undo := mkInbound sid t recv_undo in
  let st1 := step st undo in
  let cv1 := paint c cv (emitted st undo) in
  exists cv2,
    Canvas.handleRedo cv1 = (cv2, Some (recv_redo first))
    /\ drawingHistory st1 = log
    /\ Canvas.shown cv1 = Some <$> (l1 ++ l2)
    /\ (let redo := mkInbound c t' (recv_redo first) in
        drawingHistory (step st1 redo) = log ++ [first]
        /\ Canvas.shown (paint c cv2 (emitted st1 redo))
           = Some <$> ((l1 ++ l2) ++ [first]))
    /\ (NoDup (DrawingOperation.id <$> drawingHistory st) ->
        first = op /\ l1 = log /\ l2 = [])
    /\ (l2 <> [] -> exists l2', l2 = l2' ++ [op] /\ log = l1 ++ first :: l2').
Proof.
  intros Hlog Hshown Hknown Hsplit Hfirst Hl1 undo st1 cv1. subst undo st1 cv1.
  unfold paint, emitted, step, handle. cbn [received socket_id].
  rewrite !(exec_on_undo_snoc st log op Hlog).
  cbn [fst snd drawingHistory].
  rewrite inbox_cons, inbox_nil. cbn [target event reaches app foldl Canvas.on].
  rewrite Hsplit in Hshown.
  destruct (shown_removed cv l1 l2 first _ Hshown Hknown Hfirst Hl1)
    as (ref & Hobj & Hcv1 & Hshown1).
  exists (Canvas.mk (Canvas.heap cv)
            (delete (length l1) (Canvas.historyRef cv))
            (Canvas.futureRef cv)
            (Map_delete (DrawingOperation.id op) (Canvas.allPathsRef cv))).
  split_and!.
  - rewrite Hcv1. unfold Canvas.handleRedo.
    cbn [Canvas.futureRef Canvas.heap Canvas.historyRef Canvas.allPathsRef].
    by rewrite Hobj.
  - done.
  - done.
  - by rewrite exec_on_redo.
  - rewrite exec_on_redo. cbn [fst snd].
    rewrite inbox_cons, inbox_nil. cbn [target event reaches app foldl Canvas.on].
    apply shown_add_path. rewrite Hcv1 in Hshown1. by unfold Canvas.shown in *.
  - intros Hids. rewrite Hsplit in Hlog.
    assert (length l1 = length log) as Hlen.
    { rewrite Hsplit in Hids. eapply (NoDup_lookup _ _ _ _ Hids).
      - rewrite list_lookup_fmap, list_lookup_middle by done. simpl.
        by rewrite Hfirst.
      - rewrite Hlog, list_lookup_fmap, list_lookup_middle by done. done. }
    apply app_inj_1 in Hlog as [-> Htail]; [|done].
    by injection Htail as -> <-.
  - intros Hl2. rewrite Hsplit in Hlog.
    destruct l2 as [|x l2' _] using rev_ind; [done|].
    exists l2'.
    change (l1 ++ first :: l2' ++ [x]) with (l1 ++ (first :: l2') ++ [x]) in Hlog.
    rewrite app_assoc in Hlog. apply app_inj_tail in Hlog as [<- ->]. done.
Qed.

Lemma redo_click_resupplies_first_bearer_of_removed_id_witness :
  let first := sample_op "k" "s1" in
  let op := sample_op "k" "s2" in
  let st := mkState [first; op] [] 0 in
  let cv := Canvas.on_initial_state [first; op] Canvas.initial in
  exists cv2,
    Canvas.handleRedo (paint "s3" cv (emitted st (arrival "s1" recv_undo)))
      = (cv2, Some (recv_redo first)).
Proof.
  intros first op st cv.
  destruct (redo_click_resupplies_first_bearer_of_removed_id st cv "s3" "s1"
              1000%float 1000%float [first] [] [op] op first)
    as (cv2 & Hredo & _).
  - reflexivity.
  - reflexivity.
  - by eexists.
  - reflexivity.
  - reflexivity.
  - constructor.
  - by exists cv2.
Defined.

(** * The client's user list, again: names and colours *)

Section UserList_public.
Implicit Types (prev : list User.t) (m : JSMap User.t).

Lemma public_id u : (public u).1.1 = User.id u.
Proof. reflexivity. Qed.

Lemma public_on_user_left (k : string) prev :
  public <$> UserList.on_user_left k prev =
    filter (fun p => p.1.1 <> k) (public <$> prev).
Proof.
  unfold UserList.on_user_left. induction prev as [|u prev IH]; [done|].
  rewrite fmap_cons, !filter_cons. rewrite public_id.
  destruct (decide (User.id u <> k)); [rewrite fmap_cons; f_equal|]; apply IH.
Qed.

Lemma public_on_user_cursor (k : string) cursor prev :
  public <$> UserList.on_user_cursor k cursor prev = public <$> prev.
Proof.
  unfold UserList.on_user_cursor. rewrite <- list_fmap_compose.
  apply list_fmap_ext. intros _ u _. simpl. by case_decide.
Qed.

Lemma public_Map_delete (k : string) m :
  registry_ok m ->
  public <$> Map_values (Map_delete k m) =
    filter (fun p => p.1.1 <> k) (public <$> Map_values m).
Proof.
  intros [_ Hids]. unfold Map_values, Map_delete.
  induction Hids as [|[k' u] m [Hid _] _ IH]; [done|].
  rewrite !fmap_cons, !filter_cons. cbn [fst snd] in *. rewrite public_id, Hid.
  destruct (decide (k' <> k)); [rewrite !fmap_cons; f_equal|]; apply IH.
Qed.

Lemma public_Map_set_cursor (k : string) cursor u m :
  Map_get k m = Some u ->
  public <$> Map_values (Map_set k (User.set_cursor cursor u) m) =
    public <$> Map_values m.
Proof.
  unfold Map_values. induction m as [|[k' u'] m IH]; [done|]. simpl.
  destruct (decide (k' = k)) as [->|Hne].
  - intros [= ->]. by rewrite !fmap_cons.
  - intros Hget. rewrite !fmap_cons. f_equal. by apply IH.
Qed.

End UserList_public.

Lemma hear_public c st cl i :
  synced c (st, cl) ->
  public <$> UserList.users cl = public <$> Map_values (users st) ->
  (socket_id i = c -> is_disconnect i = false) ->
  (is_connection i = true -> Map_get (socket_id i) (users st) = None) ->
  public <$> UserList.users (UserList.hear (inbox c (emitted st i)) cl)
    = public <$> Map_values (users (step st i)).
Proof.
  intros (Hok & Hids & Hme) Hpub Hstay Hfresh.
  cbn [fst snd] in *. destruct i as [s t e].
  unfold UserList.hear, emitted, step, handle, is_disconnect, is_connection in *.
  cbn [fst snd received socket_id now] in *.
  destruct e.
  - specialize (Hfresh eq_refl).
    rewrite exec_on_connection. cbn zeta. cbn [fst snd users].
    rewrite !inbox_cons, inbox_nil. cbn [target event reaches].
    rewrite (Map_set_fresh s _ (users st) Hfresh).
    destruct (decide (c = s)) as [<-|Hcs].
    + rewrite bool_decide_eq_true_2 by done.
      by rewrite bool_decide_eq_false_2 by (by intros []).
    + rewrite bool_decide_eq_false_2, bool_decide_eq_true_2 by done. simpl.
      unfold UserList.on_user_joined. cbn [User.id].
      assert (list_find (fun u => User.id u = s) (UserList.users cl) = None)
        as ->.
      { apply find_by_id_None. rewrite Hids. by apply Map_get_None_keys. }
      unfold Map_values in *. by rewrite !fmap_app, <- Hpub.
  - rewrite exec_on_draw_start. cbn [fst snd users].
    rewrite inbox_cons, inbox_nil. cbn [target event reaches].
    by case_bool_decide.
  - rewrite exec_on_draw_move. cbn [fst snd].
    rewrite inbox_cons, inbox_nil. cbn [target event reaches].
    destruct (list_find _ _) as [[ref op]|]; by case_bool_decide.
  - rewrite exec_on_draw_end. cbn [fst snd].
    rewrite inbox_cons, inbox_nil. cbn [target event reaches].
    by case_bool_decide.
  - rewrite exec_on_cursor_move.
    destruct (Map_get s (users st)) as [u|] eqn:Hu; [|done].
    cbn [fst snd users]. rewrite inbox_cons, inbox_nil. cbn [target event reaches].
    rewrite public_Map_set_cursor by done.
    case_bool_decide; simpl; [|done]. by rewrite public_on_user_cursor.
  - rewrite exec_on_get_user. cbn [fst snd].
    rewrite inbox_cons, inbox_nil. cbn [target event reaches].
    by case_bool_decide.
  - rewrite exec_on_undo. by destruct (drawingHistory st).
  - by rewrite exec_on_redo.
  - rewrite exec_on_erase. cbn [fst snd users].
    rewrite inbox_cons, inbox_nil. cbn [target event reaches].
    by case_bool_decide.
  - assert (c <> s) as Hcs by (intros ->; by specialize (Hstay eq_refl)).
    rewrite exec_on_disconnect. cbn [fst snd users].
    rewrite inbox_cons, inbox_nil. cbn [target event reaches].
    rewrite bool_decide_eq_true_2 by done. simpl.
    by rewrite public_on_user_left, public_Map_delete, Hpub.
Qed.

Lemma hear_heard_public c tr st cl :
  synced c (st, cl) ->
  public <$> UserList.users cl = public <$> Map_values (users st) ->
  Forall (fun i => socket_id i = c -> is_disconnect i = false) tr ->
  fresh_sockets st tr ->
  public <$> UserList.users (UserList.hear (heard c st tr) cl)
    = public <$> Map_values (users (run st tr)).
Proof.
  intros Hsynced Hpub Hstay. revert st cl Hsynced Hpub.
  induction Hstay as [|i tr Hi _ IH]; intros st cl Hsynced Hpub Hfresh; [done|].
  destruct Hfresh as [Hfi Hfresh].
  cbn [heard]. rewrite hear_app, run_cons. apply IH.
  - by apply hear_synced.
  - by apply hear_public.
  - done.
Qed.

(** The snapshot a socket is sent on connecting holds the users of the
    registry. *)
Lemma hear_own_snapshot c t st cl :
  let join := mkInbound c t recv_connection in
  UserList.users (UserList.hear (heard c st [join]) cl)
  = Map_values (users (step st join)).
Proof.
  intros join. subst join.
  unfold heard, UserList.hear, emitted, step, handle. cbn [received socket_id].
  rewrite exec_on_connection. cbn zeta. cbn [fst snd users].
  rewrite !inbox_cons, inbox_nil. cbn [target event reaches].
  rewrite bool_decide_eq_true_2 by done.
  by rewrite bool_decide_eq_false_2 by (by intros []).
Qed.

(** X21 — If moreover every connection comes from a socket that is not
    registered at that moment, then for as long as the listeners of
    [UserList] are on the socket (React has not committed since the page
    received [user-assigned]) the list shows, user for user and in the
    order of the registry, the id, the name and the colour the server has
    registered.  A page that has received [user-assigned] and
    [initial-state] before the commit that removes those listeners goes on
    showing the users as they were registered when its socket connected,
    whatever it receives later. *)
Theorem user_list_shows_names_and_colours
    (before after : list Inbound) (c : string) (t : number) :
  let join := mkInbound c t recv_connection in
  let st := run initial before in
  Forall (fun i => socket_id i = c -> is_disconnect i = false) after ->
  fresh_sockets st (join :: after) ->
  (let pg := Page.play Page.mounted
               (Page.receives <$> heard c st (join :: after)) in
   public <$> UserList.users (Page.userList pg)
     = public <$> Map_values (users (run st (join :: after))))
  /\ (forall rest,
        let pg := Page.play Page.mounted
                    ((Page.receives <$> heard c st [join])
                       ++ Page.commits :: rest) in
        UserList.users (Page.userList pg) = Map_values (users (step st join))).
Proof.
  intros join st Hafter [_ Hfresh]. split.
  - intros pg. subst pg join. rewrite play_receives by done.
    cbn [heard]. rewrite hear_app, run_cons.
    apply hear_heard_public; [| |done..].
    + apply hear_own_connection. apply registry_is_well_formed_run.
    + pose proof (hear_own_snapshot c t st (Page.userList Page.mounted)) as Hsnap.
      cbn zeta in Hsnap. cbn [heard] in Hsnap. rewrite app_nil_r in Hsnap.
      by rewrite Hsnap.
  - intros rest pg. subst pg join.
    rewrite play_stuck_on_joining. apply hear_own_snapshot.
Qed.

Lemma user_list_shows_names_and_colours_witness :
  let st := run initial [arrival "s1" recv_connection] in
  let join := arrival "s2" recv_connection in
  let later := [arrival "s3" recv_connection; arrival "s1" recv_disconnect] in
  public <$> UserList.users
    (Page.userList
       (Page.play Page.mounted (Page.receives <$> heard "s2" st (join :: later))))
  = [ ("s2", "User 2", "#4ECDC4"); ("s3", "User 3", "#45B7D1") ].
Proof.
  intros st join later.
  apply (user_list_shows_names_and_colours [arrival "s1" recv_connection]
           later "s2" 1000%float).
  - repeat constructor; discriminate.
  - simpl. split_and!; done.
Defined.

(** * Drawing with the pointer *)

Lemma optimizePath_last points threshold :
  last (optimizePath points threshold) = last points.
Proof.
  destruct (optimizePath_shape points threshold) as (Hshort & _ & Hlong).
  destruct (decide (length points < 2)) as [Hlt|Hge].
  - by rewrite Hshort.
  - by destruct Hlong as (_ & Hlast & _); [lia|].
Qed.

Lemma last_drop_nonempty {A} (l : list A) k :
  drop k l <> [] -> last (drop k l) = last l.
Proof.
  intros Hne. rewrite <- (take_drop k l) at 2.
  rewrite last_app. by destruct (last (drop k l)) eqn:Hlast;
    [|apply last_None in Hlast].
Qed.

Lemma heap_after_add_path path cv :
  Canvas.heap (Canvas.add_path path cv) !! length (Canvas.heap cv) = Some path.
Proof. unfold Canvas.add_path. simpl. by apply list_lookup_middle. Qed.

(** X22 — Between strokes the pen is silent.  [startDrawing] on a socket
    that is not connected, and [draw] and [stopDrawing] while no stroke is
    under way, change nothing and send nothing, not even the cursor: once
    a stroke has been stopped, moving the pointer sends nothing until the
    next stroke starts. *)
Theorem pen_is_silent_between_strokes
    (s : Pen.t) (tool tool' : Pen.Tool) (strokeWidth : number) (point : Point.t) :
  (forall socketId colour operationId t,
      Pen.startDrawing false socketId tool colour strokeWidth operationId t
        point s = (s, []))
  /\ (Pen.isDrawingRef s = false ->
      Pen.draw tool strokeWidth point s = (s, [])
      /\ Pen.stopDrawing tool s = (s, []))
  /\ (Pen.draw tool strokeWidth point (Pen.stopDrawing tool' s).1).2 = [].
Proof.
  split_and!.
  - done.
  - intros Hidle. unfold Pen.draw, Pen.stopDrawing. by rewrite Hidle.
  - unfold Pen.stopDrawing.
    destruct (Pen.isDrawingRef s) eqn:Hdrawing; cbn [negb].
    + destruct (Pen.currentPathRef s) as [ref|] eqn:Href; cbn [mbind option_bind].
      * destruct (Canvas.heap (Pen.canvas s) !! ref) as [path|] eqn:Hpath.
        -- done.
        -- unfold Pen.draw. cbn [fst]. rewrite Hdrawing, Href.
           cbn [negb mbind option_bind]. by rewrite Hpath.
      * unfold Pen.draw. cbn [fst]. by rewrite Hdrawing, Href.
    + unfold Pen.draw. cbn [fst]. by rewrite Hdrawing.
Qed.

Lemma pen_is_silent_between_strokes_witness :
  Pen.draw Pen.brush 5%float (Point.mk 1%float 2%float None) Pen.initial
    = (Pen.initial, []).
Proof.
  apply (proj1 (proj2 (pen_is_silent_between_strokes Pen.initial
                         Pen.brush Pen.brush 5%float
                         (Point.mk 1%float 2%float None)))).
  reflexivity.
Defined.

(** X23 — While a brush stroke is under way, each move of the pointer
    sends the cursor, and before it at most one item for the batcher.
    Call [pushed] the path with the new point, [optimized] what
    [optimizePath] makes of it, and [newPoints] what is left of
    [optimized] after as many of its first points as [optimized] is
    shorter than [pushed].  If [newPoints] is not empty it is what is sent,
    it ends with the new point, and [optimized] becomes the path of the
    stroke; if it is empty only the cursor is sent, and the path keeps the
    new point.  When the optimisation takes no point away, what is sent is
    the whole path again, not the new point alone. *)
Theorem draw_sends_the_end_of_the_optimised_path
    (s : Pen.t) (ref : nat) (path : DrawingOperation.t)
    (strokeWidth : number) (point : Point.t) :
  Pen.isDrawingRef s = true ->
  Pen.currentPathRef s = Some ref ->
  Canvas.heap (Pen.canvas s) !! ref = Some path ->
  let pushed := DrawingOperation.points path ++ [point] in
  let optimized := optimizePath pushed 1%float in
  let newPoints := drop (length pushed - length optimized) optimized in
  let cursor :=
    Pen.socket_send
      (recv_cursor_move (Cursor.mk (Point.x point) (Point.y point))) in
  let s' := (Pen.draw Pen.brush strokeWidth point s).1 in
  let out := (Pen.draw Pen.brush strokeWidth point s).2 in
  (newPoints <> [] ->
     out = [ Pen.batchDrawMove (DrawingOperation.id path) newPoints; cursor ]
     /\ last newPoints = Some point
     /\ DrawingOperation.points <$> Pen.currentPath s' = Some optimized)
  /\ (newPoints = [] ->
      out = [cursor]
      /\ DrawingOperation.points <$> Pen.currentPath s' = Some pushed)
  /\ (optimized = pushed -> newPoints = pushed).
Proof.
  intros Hdrawing Hcurrent Hpath pushed optimized newPoints cursor s' out.
  subst s' out. unfold Pen.draw, Pen.currentPath.
  rewrite Hdrawing, Hcurrent. cbn [negb mbind option_bind]. rewrite Hpath.
  cbn [fmap option_fmap option_map]. fold pushed. fold optimized. fold newPoints.
  split_and!.
  - intros Hne. destruct newPoints as [|p rest] eqn:Hnew; [done|].
    cbn [length Nat.ltb Nat.leb fst snd Pen.currentPathRef Pen.canvas
      Canvas.heap mbind option_bind].
    rewrite list_lookup_alter_eq, Hpath. split_and!; [done| |done].
    rewrite <- Hnew. subst newPoints. rewrite last_drop_nonempty by congruence.
    subst optimized. rewrite optimizePath_last. subst pushed. apply last_snoc.
  - intros ->. cbn [length Nat.ltb Nat.leb fst snd Pen.currentPathRef Pen.canvas
      Canvas.heap mbind option_bind].
    by rewrite list_lookup_alter_eq, Hpath.
  - intros Hsame. subst newPoints. rewrite Hsame, Nat.sub_diag. apply drop_0.
Qed.

Lemma draw_sends_the_end_of_the_optimised_path_witness :
  let p0 := Point.mk 1%float 2%float None in
  let p1 := Point.mk 3%float 4%float None in
  let s := (Pen.startDrawing true (Some "s1") Pen.brush "#000000" 5%float
              "op1" 1000%float p0 Pen.initial).1 in
  (Pen.draw Pen.brush 5%float p1 s).2 =
    [ Pen.batchDrawMove "op1" [p0; p1];
      Pen.socket_send (recv_cursor_move (Cursor.mk 3%float 4%float)) ].
Proof.
  intros p0 p1 s.
  refine (proj1 (proj1 (draw_sends_the_end_of_the_optimised_path s 0
                          (DrawingOperation.mk "op1" "s1" type_draw [p0]
                             "#000000" 5%float 1000%float)
                          5%float p1 eq_refl eq_refl eq_refl) _)).
  discriminate.
Defined.

(** A path of two points has no inner point to lose. *)
Lemma optimizePath_two p0 p1 threshold :
  optimizePath [p0; p1] threshold = [p0; p1].
Proof. reflexivity. Qed.

(** X24 — The first move of every brush stroke sends the first point of
    the stroke a second time: [draw-start] carries the point where the
    stroke began, and the item batched on the first move carries that
    point and the new one.  So, when no Operation of the log bears the id
    of the stroke, the Operation the server holds after the two events has
    the first point twice, while the path on the drawing client has it
    once. *)
Theorem first_move_sends_the_first_point_again
    (s : Pen.t) (socketId : option string) (colour operationId : string)
    (strokeWidth t : number) (p0 p1 : Point.t)
    (st : State) (sid : string) (t0 t1 : number) :
  let data :=
    DrawStart.mk operationId (Pen.userId_of socketId) type_draw [p0]
      colour strokeWidth in
  let started_pen :=
    Pen.startDrawing true socketId Pen.brush colour strokeWidth operationId
      t p0 s in
  let moved := Pen.draw Pen.brush strokeWidth p1 started_pen.1 in
  started_pen.2 = [Pen.socket_send (recv_draw_start data)]
  /\ moved.2 =
       [ Pen.batchDrawMove operationId [p0; p1];
         Pen.socket_send
           (recv_cursor_move (Cursor.mk (Point.x p1) (Point.y p1))) ]
  /\ DrawingOperation.points <$> Pen.currentPath moved.1 = Some [p0; p1]
  /\ (Forall (fun o => ~ bears operationId o) (drawingHistory st) ->
      DrawingOperation.points
        <$> last (drawingHistory
                    (run st [ mkInbound sid t0 (recv_draw_start data);
                              mkInbound sid t1
                                (recv_draw_move operationId [p0; p1]) ]))
      = Some [p0; p0; p1]).
Proof.
  intros data started_pen moved. subst data started_pen moved.
  assert (forall path : DrawingOperation.t,
            Canvas.heap (Canvas.add_path path (Pen.canvas s))
              !! length (Canvas.heap (Pen.canvas s)) = Some path) as Hnew.
  { intros path. apply heap_after_add_path. }
  split_and!.
  - reflexivity.
  - unfold Pen.startDrawing, Pen.draw.
    cbn [negb fst snd Pen.isDrawingRef Pen.currentPathRef Pen.canvas mbind
      option_bind].
    rewrite Hnew. reflexivity.
  - unfold Pen.startDrawing, Pen.draw, Pen.currentPath.
    cbn [negb fst snd Pen.isDrawingRef Pen.currentPathRef Pen.canvas mbind
      option_bind].
    rewrite Hnew.
    cbn [fmap option_fmap option_map DrawingOperation.points app].
    rewrite !optimizePath_two.
    cbn [length Nat.sub drop Nat.ltb Nat.leb fst Pen.currentPathRef Pen.canvas
      Canvas.heap mbind option_bind].
    by rewrite list_lookup_alter_eq, Hnew.
  - intros Hfresh. rewrite !run_cons. unfold run. cbn [foldl].
    unfold step at 2. unfold handle. cbn [received socket_id now].
    rewrite exec_on_draw_start. cbn zeta. cbn [fst].
    unfold step, handle. cbn [received socket_id].
    rewrite (draw_move_first_match operationId sid [p0; p1] _
               (drawingHistory st)
               (started t0 (DrawStart.mk operationId (Pen.userId_of socketId)
                              type_draw [p0] colour strokeWidth)) []);
      [|done..].
    cbn [fst drawingHistory]. by rewrite last_snoc.
Qed.

Lemma first_move_sends_the_first_point_again_witness :
  let p0 := Point.mk 1%float 2%float None in
  let p1 := Point.mk 3%float 4%float None in
  DrawingOperation.points
    <$> last (drawingHistory
                (run initial
                   [ arrival "s1" (recv_draw_start
                        (DrawStart.mk "op1" "s1" type_draw [p0] "#000000" 5%float));
                     arrival "s1" (recv_draw_move "op1" [p0; p1]) ]))
  = Some [p0; p0; p1].
Proof.
  intros p0 p1.
  apply (first_move_sends_the_first_point_again Pen.initial (Some "s1")
           "#000000" "op1" 5%float 1000%float p0 p1 initial "s1"
           1000%float 1000%float).
  constructor.
Defined.

(** X25 — The eraser is not as wide for the others as for the one who
    erases.  [startDrawing] with the eraser, at the chosen width [w], puts
    a path of width [w * 2] and colour ['#FFFFFF'] into the local history,
    and sends an [erase] whose point has the radius [w]; the Operation the
    server appends and relays for it has the width [w] (for a [w] that is
    not [0] or [NaN]). *)
Theorem eraser_is_half_as_wide_for_the_others
    (s : Pen.t) (socketId : option string) (colour operationId : string)
    (w t : number) (point : Point.t)
    (st : State) (sid : string) (t' : number) :
  let pen :=
    Pen.startDrawing true socketId Pen.eraser colour w operationId t point s in
  let sent :=
    recv_erase operationId
      [ErasePoint.mk (Point.x point) (Point.y point) (Some w)] in
  pen.2 = [Pen.socket_send sent]
  /\ DrawingOperation.strokeWidth <$> Pen.currentPath pen.1 = Some (w * 2)%float
  /\ DrawingOperation.color <$> Pen.currentPath pen.1 = Some "#FFFFFF"
  /\ (truthy w = true ->
      DrawingOperation.strokeWidth
        <$> last (drawingHistory (step st (mkInbound sid t' sent)))
      = Some w).
Proof.
  intros pen sent. subst pen sent.
  unfold Pen.startDrawing, Pen.currentPath.
  cbn [negb fst snd Pen.currentPathRef Pen.canvas mbind option_bind].
  rewrite heap_after_add_path. split_and!; try done.
  intros Hw. unfold step, handle. cbn [received socket_id now].
  rewrite exec_on_erase. cbn zeta. cbn [fst drawingHistory].
  rewrite last_snoc. simpl. by rewrite Hw.
Qed.

Lemma eraser_is_half_as_wide_for_the_others_witness :
  DrawingOperation.strokeWidth
    <$> last (drawingHistory
                (step initial
                   (arrival "s1"
                      (recv_erase "e1"
                         [ErasePoint.mk 1%float 2%float (Some 10%float)]))))
  = Some 10%float.
Proof.
  apply (eraser_is_half_as_wide_for_the_others Pen.initial (Some "s1")
           "#000000" "e1" 10%float 1000%float
           (Point.mk 1%float 2%float None) initial "s1" 1000%float).
  reflexivity.
Defined.
